(** * Search box controller: a shallow embedding of the Angular component
  [App] (search orchestration, keyboard navigation, error
  classification, result highlighting) and of the RxJS pipeline it
  builds in [setupSearchStream].

  JavaScript strings are modelled as [string] over code units below 256
  (the Latin-1 range); numbers that can be negative are [Z], counters are
  [nat].  Timers and network callbacks are events of a step function, so
  that time is abstracted to the order in which callbacks run. *)

From Stdlib Require Import ZArith List String Ascii Bool Lia.
Import ListNotations.

Local Open Scope Z_scope.

(* ------------------------------------------------------------------ *)
(** ** JavaScript string primitives used by the component *)

Module JsString.

(** Code units that [String.prototype.trim] strips (WhiteSpace and
    LineTerminator, restricted to code units below 256). *)
Definition is_whitespace (c : ascii) : bool :=
  let n := nat_of_ascii c in
  (((9 <=? n) && (n <=? 13)) || (n =? 32) || (n =? 160))%nat.

Fixpoint trimStart (l : list ascii) : list ascii :=
  match l with
  | [] => []
  | c :: r => if is_whitespace c then trimStart r else l
  end.

Definition trim (s : string) : string :=
  string_of_list_ascii
    (rev (trimStart (rev (trimStart (list_ascii_of_string s))))).

(** Truthiness of a string value: only the empty string is falsy. *)
Definition truthy (s : string) : bool :=
  match s with
  | EmptyString => false
  | String _ _ => true
  end.

(** [!term.trim()] *)
Definition blank (s : string) : bool := negb (truthy (trim s)).

(** [arr[i]] for a number [i]: [undefined] outside the array. *)
Definition index {A : Type} (l : list A) (i : Z) : option A :=
  if i <? 0 then None else nth_error l (Z.to_nat i).

(** Truthiness of [arr[i]] for an array of strings. *)
Definition truthy_at (l : list string) (i : Z) : bool :=
  match index l i with
  | Some s => truthy s
  | None => false
  end.

Definition len {A : Type} (l : list A) : Z := Z.of_nat (List.length l).

End JsString.

(* ------------------------------------------------------------------ *)
(** ** Result highlighting: [escapeRegex] and [highlightMatch] *)

Module Highlight.
Import JsString.

Definition backslash : ascii := ascii_of_nat 92.

(** The character class of [escapeRegex]: . * + ? ^ $ { } ( ) | [ ] \ *)
Definition special_codes : list nat :=
  [46; 42; 43; 63; 94; 36; 123; 125; 40; 41; 124; 91; 93; 92]%nat.

Definition is_special (c : ascii) : bool :=
  existsb (Nat.eqb (nat_of_ascii c)) special_codes.

(** [str.replace(/[.*+?^${}()|[\]\\]/g, '\\$&')] *)
Fixpoint escapeRegex (str : list ascii) : list ascii :=
  match str with
  | [] => []
  | c :: r =>
      if is_special c then backslash :: c :: escapeRegex r
      else c :: escapeRegex r
  end.

(** The syntax characters of the pattern grammar of [new RegExp], in
    the order the grammar lists them: ^ $ \ . * + ? ( ) [ ] { } | *)
Definition syntax_codes : list nat :=
  [94; 36; 92; 46; 42; 43; 63; 40; 41; 91; 93; 123; 125; 124]%nat.

Definition is_syntax (c : ascii) : bool :=
  existsb (Nat.eqb (nat_of_ascii c)) syntax_codes.

(** The pattern language of [new RegExp], restricted to literal
    patterns: a pattern character that is not a syntax character
    stands for itself, and a backslash followed by a syntax character
    is an identity escape.  Anything else (a bare syntax character, a
    class escape, a trailing backslash) is outside the fragment:
    [None]. *)
Fixpoint parse_from (escaped : bool) (pat : list ascii)
  : option (list ascii) :=
  match pat with
  | [] => if escaped then None else Some []
  | c :: r =>
      if escaped then
        if is_syntax c then option_map (cons c) (parse_from false r)
        else None
      else if Ascii.eqb c backslash then parse_from true r
      else if is_syntax c then None
      else option_map (cons c) (parse_from false r)
  end.

Definition parse_literal (pat : list ascii) : option (list ascii) :=
  parse_from false pat.

(** Canonicalisation of a code unit under the [i] flag (without [u]):
    the upper-case form when that is a single code unit, except that a
    code unit of 128 or more is never mapped below 128.  Below 256 this
    maps a-z and the Latin-1 lower-case letters 224-254 (but not the
    division sign 247) down by 32; 181 and 255 have upper-case forms
    above 255 that no other code unit below 256 shares, and 223 has a
    two-unit upper-case form, so all three canonicalise to
    themselves here. *)
Definition canonicalize (c : ascii) : nat :=
  let n := nat_of_ascii c in
  if ((97 <=? n) && (n <=? 122))%nat then (n - 32)%nat
  else if ((224 <=? n) && (n <=? 254) && negb (n =? 247))%nat
       then (n - 32)%nat
  else n.

Definition ci_eqb (a b : ascii) : bool :=
  (canonicalize a =? canonicalize b)%nat.

(** The literal [lit] matches case-insensitively at the start of
    [text]. *)
Fixpoint matches_at (lit text : list ascii) : bool :=
  match lit with
  | [] => true
  | l :: ls =>
      match text with
      | [] => false
      | t :: ts => ci_eqb l t && matches_at ls ts
      end
  end.

(** Pieces of the output of a global replace: a code unit copied
    through, or a match, which the replacement wraps. *)
Inductive segment : Type :=
| Plain (c : ascii)
| Marked (m : list ascii).

(** [text.replace(regex, ...)] with the [g] flag, for a literal
    pattern: matches are searched left to right, each search starting
    where the previous match ended.  An empty match advances by one
    code unit (and also matches at the end of the text).  [fuel]
    bounds the number of search positions; [length text] is enough. *)
Fixpoint scan (fuel : nat) (lit text : list ascii) : list segment :=
  match fuel with
  | O =>
      match lit, text with
      | [], [] => [Marked []]
      | _, _ => []
      end
  | S fuel' =>
      match text with
      | [] =>
          match lit with
          | [] => [Marked []]
          | _ :: _ => []
          end
      | c :: rest =>
          if matches_at lit text then
            match lit with
            | [] => Marked [] :: Plain c :: scan fuel' lit rest
            | _ :: _ =>
                Marked (firstn (List.length lit) text)
                  :: scan fuel' lit (skipn (List.length lit) text)
            end
          else Plain c :: scan fuel' lit rest
      end
  end.

Definition mark_open : list ascii := list_ascii_of_string "<mark>".
Definition mark_close : list ascii := list_ascii_of_string "</mark>".

(** The replacement ['<mark>$1</mark>']: group 1 spans the whole
    pattern, so [$1] is the matched text as it stands in [text]. *)
Definition render_segment (s : segment) : list ascii :=
  match s with
  | Plain c => [c]
  | Marked m => mark_open ++ m ++ mark_close
  end.

Definition render (l : list segment) : list ascii :=
  flat_map render_segment l.

(** The text a segment was cut from. *)
Definition source_segment (s : segment) : list ascii :=
  match s with
  | Plain c => [c]
  | Marked m => m
  end.

Definition erase (l : list segment) : list ascii :=
  flat_map source_segment l.

Definition replaceAll (lit text : list ascii) : list segment :=
  scan (List.length text) lit text.

(** [highlightMatch(text, term)].  The pattern is
    [(] ++ escapeRegex(term) ++ [)] with flags [gi]; the group only
    names the whole match.  A pattern outside the literal fragment
    cannot arise (see [parse_escapeRegex]); the branch returns the text
    unchanged. *)
Definition highlightMatch (text term : string) : string :=
  if blank term then text
  else
    match parse_literal (escapeRegex (list_ascii_of_string term)) with
    | Some lit =>
        string_of_list_ascii
          (render (replaceAll lit (list_ascii_of_string text)))
    | None => text
    end.

End Highlight.

(* ------------------------------------------------------------------ *)
(** ** The component's fields *)

Module Component.
Import JsString.

Record App : Type := mkApp {
  searchTerm : string;
  results : list string;
  selectedValue : option string;
  selectedIndex : Z;
  isLoading : bool;
  hasError : bool;
  hasSearched : bool;
  showDropdown : bool;
  showErrorToast : bool;
  errorMessage : string;
  toastMessage : string;
  errorCount : nat;
  requestCount : nat;
  latency : option Z
}.

(** Field values at construction. *)
Definition initial : App :=
  {| searchTerm := EmptyString; results := []; selectedValue := None;
     selectedIndex := -1; isLoading := false; hasError := false;
     hasSearched := false; showDropdown := false;
     showErrorToast := false; errorMessage := EmptyString;
     toastMessage := EmptyString; errorCount := 0; requestCount := 0;
     latency := None |}.

(** Assignments to single fields. *)
Definition set_searchTerm (v : string) (a : App) : App :=
  mkApp v (results a) (selectedValue a) (selectedIndex a) (isLoading a)
    (hasError a) (hasSearched a) (showDropdown a) (showErrorToast a)
    (errorMessage a) (toastMessage a) (errorCount a) (requestCount a)
    (latency a).
Definition set_results (v : list string) (a : App) : App :=
  mkApp (searchTerm a) v (selectedValue a) (selectedIndex a) (isLoading a)
    (hasError a) (hasSearched a) (showDropdown a) (showErrorToast a)
    (errorMessage a) (toastMessage a) (errorCount a) (requestCount a)
    (latency a).
Definition set_selectedValue (v : option string) (a : App) : App :=
  mkApp (searchTerm a) (results a) v (selectedIndex a) (isLoading a)
    (hasError a) (hasSearched a) (showDropdown a) (showErrorToast a)
    (errorMessage a) (toastMessage a) (errorCount a) (requestCount a)
    (latency a).
Definition set_selectedIndex (v : Z) (a : App) : App :=
  mkApp (searchTerm a) (results a) (selectedValue a) v (isLoading a)
    (hasError a) (hasSearched a) (showDropdown a) (showErrorToast a)
    (errorMessage a) (toastMessage a) (errorCount a) (requestCount a)
    (latency a).
Definition set_isLoading (v : bool) (a : App) : App :=
  mkApp (searchTerm a) (results a) (selectedValue a) (selectedIndex a) v
    (hasError a) (hasSearched a) (showDropdown a) (showErrorToast a)
    (errorMessage a) (toastMessage a) (errorCount a) (requestCount a)
    (latency a).
Definition set_hasError (v : bool) (a : App) : App :=
  mkApp (searchTerm a) (results a) (selectedValue a) (selectedIndex a)
    (isLoading a) v (hasSearched a) (showDropdown a) (showErrorToast a)
    (errorMessage a) (toastMessage a) (errorCount a) (requestCount a)
    (latency a).
Definition set_hasSearched (v : bool) (a : App) : App :=
  mkApp (searchTerm a) (results a) (selectedValue a) (selectedIndex a)
    (isLoading a) (hasError a) v (showDropdown a) (showErrorToast a)
    (errorMessage a) (toastMessage a) (errorCount a) (requestCount a)
    (latency a).
Definition set_showDropdown (v : bool) (a : App) : App :=
  mkApp (searchTerm a) (results a) (selectedValue a) (selectedIndex a)
    (isLoading a) (hasError a) (hasSearched a) v (showErrorToast a)
    (errorMessage a) (toastMessage a) (errorCount a) (requestCount a)
    (latency a).
Definition set_showErrorToast (v : bool) (a : App) : App :=
  mkApp (searchTerm a) (results a) (selectedValue a) (selectedIndex a)
    (isLoading a) (hasError a) (hasSearched a) (showDropdown a) v
    (errorMessage a) (toastMessage a) (errorCount a) (requestCount a)
    (latency a).
Definition set_errorMessage (v : string) (a : App) : App :=
  mkApp (searchTerm a) (results a) (selectedValue a) (selectedIndex a)
    (isLoading a) (hasError a) (hasSearched a) (showDropdown a)
    (showErrorToast a) v (toastMessage a) (errorCount a) (requestCount a)
    (latency a).
Definition set_toastMessage (v : string) (a : App) : App :=
  mkApp (searchTerm a) (results a) (selectedValue a) (selectedIndex a)
    (isLoading a) (hasError a) (hasSearched a) (showDropdown a)
    (showErrorToast a) (errorMessage a) v (errorCount a) (requestCount a)
    (latency a).
Definition set_errorCount (v : nat) (a : App) : App :=
  mkApp (searchTerm a) (results a) (selectedValue a) (selectedIndex a)
    (isLoading a) (hasError a) (hasSearched a) (showDropdown a)
    (showErrorToast a) (errorMessage a) (toastMessage a) v
    (requestCount a) (latency a).
Definition set_requestCount (v : nat) (a : App) : App :=
  mkApp (searchTerm a) (results a) (selectedValue a) (selectedIndex a)
    (isLoading a) (hasError a) (hasSearched a) (showDropdown a)
    (showErrorToast a) (errorMessage a) (toastMessage a) (errorCount a)
    v (latency a).
Definition set_latency (v : option Z) (a : App) : App :=
  mkApp (searchTerm a) (results a) (selectedValue a) (selectedIndex a)
    (isLoading a) (hasError a) (hasSearched a) (showDropdown a)
    (showErrorToast a) (errorMessage a) (toastMessage a) (errorCount a)
    (requestCount a) v.

(** [get hasResults] *)
Definition hasResults (a : App) : bool := 0 <? len (results a).

(** What the error callback of the request pipeline receives: the
    [TimeoutError] of the [timeout] operator, or an
    [HttpErrorResponse] with its status (0 when no response was
    received) and, when the body is an object with an [error] field,
    that field. *)
Inductive SearchError : Type :=
| TimeoutError
| HttpErrorResponse (status : Z) (payload : option string).

Definition msg_timeout : string := "Request timed out. Please try again.".
Definition msg_connect : string := "Cannot connect to server. Is it running?".
Definition msg_server : string :=
  "Server error. This might be the 15% random failure.".
Definition msg_not_found : string := "Search endpoint not found.".
Definition msg_unexpected : string := "An unexpected error occurred.".
Definition msg_toast : string :=
  "Multiple errors detected. Check your connection.".

(** The chain of tests of [handleSearchError] that picks the
    message. *)
Definition classify (error : SearchError) : string :=
  match error with
  | TimeoutError => msg_timeout
  | HttpErrorResponse status payload =>
      if status =? 0 then msg_connect
      else if status =? 500 then msg_server
      else if status =? 404 then msg_not_found
      else match payload with
           | Some m => if truthy m then m else msg_unexpected
           | None => msg_unexpected
           end
  end.

(** [navigateResults(direction)] *)
Definition navigateResults (direction : Z) (a : App) : App :=
  if negb (hasResults a) then a
  else
    let newIndex := selectedIndex a + direction in
    if newIndex <? -1 then set_selectedIndex (len (results a) - 1) a
    else if len (results a) <=? newIndex then set_selectedIndex (-1) a
    else set_selectedIndex newIndex a.

(** [handleSearchResponse(response)], on the [results] of the
    response. *)
Definition handleSearchResponse (response : list string) (a : App) : App :=
  let a := set_hasSearched true (set_isLoading false a) in
  if 0 <? len response then set_hasError false (set_results response a)
  else if truthy (trim (searchTerm a)) then set_results [] a
  else a.

End Component.

(* ------------------------------------------------------------------ *)
(** ** The controller: component fields, the operators of
  [setupSearchStream], timers, and the handlers *)

Module Controller.
Import JsString.
Export Component.

Definition MAX_RETRIES : nat := 2.

(** What the inner observable of [switchMap] is waiting for: the
    response to (or the timeout of) the request it issued, or the
    notifier returned by the [delay] callback of [retry].  The notifier
    built here, [of(null).pipe(debounceTime(..))], emits as soon as
    [of] completes, that is within the failure callback, so
    [attemptFailed] resubscribes at once and never leaves the pipeline
    in [Backoff] (lemma [backoff_unreachable]). *)
Inductive Phase : Type :=
| Awaiting (request : nat)
| Backoff.

(** The inner subscription of [switchMap] for a non-blank term. *)
Record Inner : Type := mkInner {
  iterm : string;
  ipipe : nat;          (* which pipeline this is, counted from 1 *)
  retried : nat;        (* [soFar] of [retry] *)
  phase : Phase
}.

(** A request handed to [http.get]. *)
Record Request : Type := mkRequest {
  rid : nat;
  rterm : string;
  rpipe : nat
}.

Record World : Type := mkWorld {
  app : App;
  (* operators of the outer pipe *)
  debounced : option string;   (* value held by [debounceTime] *)
  distinctKey : option string; (* last value [distinctUntilChanged] let through *)
  inner : option Inner;        (* active inner subscription of [switchMap] *)
  nextRequest : nat;
  pipes : nat;                 (* request pipelines started so far *)
  (* what an observer of the component sees, newest first *)
  sent : list Request;         (* requests issued *)
  settled : list string;       (* values that left [debounceTime] *)
  emitted : list string;       (* values emitted on [resultSelected] *)
  (* timers *)
  blurTimeout : option nat;    (* the handle stored by [onBlur] *)
  blurTimers : list nat;       (* blur timers still pending *)
  nextTimer : nat;
  toastTimers : nat            (* pending toast timers *)
}.

Definition initial_world : World :=
  {| app := initial; debounced := None; distinctKey := None;
     inner := None; nextRequest := 0; pipes := 0; sent := [];
     settled := []; emitted := []; blurTimeout := None;
     blurTimers := []; nextTimer := 1; toastTimers := 0 |}.

Definition on_app (f : App -> App) (w : World) : World :=
  mkWorld (f (app w)) (debounced w) (distinctKey w) (inner w)
    (nextRequest w) (pipes w) (sent w) (settled w) (emitted w)
    (blurTimeout w) (blurTimers w) (nextTimer w) (toastTimers w).
Definition set_debounced (v : option string) (w : World) : World :=
  mkWorld (app w) v (distinctKey w) (inner w)
    (nextRequest w) (pipes w) (sent w) (settled w) (emitted w)
    (blurTimeout w) (blurTimers w) (nextTimer w) (toastTimers w).
Definition set_distinctKey (v : option string) (w : World) : World :=
  mkWorld (app w) (debounced w) v (inner w)
    (nextRequest w) (pipes w) (sent w) (settled w) (emitted w)
    (blurTimeout w) (blurTimers w) (nextTimer w) (toastTimers w).
Definition set_inner (v : option Inner) (w : World) : World :=
  mkWorld (app w) (debounced w) (distinctKey w) v
    (nextRequest w) (pipes w) (sent w) (settled w) (emitted w)
    (blurTimeout w) (blurTimers w) (nextTimer w) (toastTimers w).
Definition set_pipes (v : nat) (w : World) : World :=
  mkWorld (app w) (debounced w) (distinctKey w) (inner w)
    (nextRequest w) v (sent w) (settled w) (emitted w)
    (blurTimeout w) (blurTimers w) (nextTimer w) (toastTimers w).
Definition log_settled (v : string) (w : World) : World :=
  mkWorld (app w) (debounced w) (distinctKey w) (inner w)
    (nextRequest w) (pipes w) (sent w) (v :: settled w) (emitted w)
    (blurTimeout w) (blurTimers w) (nextTimer w) (toastTimers w).
Definition emit (v : string) (w : World) : World :=
  mkWorld (app w) (debounced w) (distinctKey w) (inner w)
    (nextRequest w) (pipes w) (sent w) (settled w) (v :: emitted w)
    (blurTimeout w) (blurTimers w) (nextTimer w) (toastTimers w).
Definition set_blur (h : option nat) (live : list nat) (next : nat)
    (w : World) : World :=
  mkWorld (app w) (debounced w) (distinctKey w) (inner w)
    (nextRequest w) (pipes w) (sent w) (settled w) (emitted w)
    h live next (toastTimers w).
Definition set_toastTimers (v : nat) (w : World) : World :=
  mkWorld (app w) (debounced w) (distinctKey w) (inner w)
    (nextRequest w) (pipes w) (sent w) (settled w) (emitted w)
    (blurTimeout w) (blurTimers w) (nextTimer w) v.

(** [http.get(...)] subscribed: a request goes out and the inner
    subscription waits for it. *)
Definition issue (term : string) (pipe retries : nat) (w : World) : World :=
  let r := nextRequest w in
  mkWorld (app w) (debounced w) (distinctKey w)
    (Some (mkInner term pipe retries (Awaiting r)))
    (S r) (pipes w) (mkRequest r term pipe :: sent w) (settled w)
    (emitted w) (blurTimeout w) (blurTimers w) (nextTimer w)
    (toastTimers w).

(** [searchSubject.next(value)]: [debounceTime] holds the value and
    restarts its timer. *)
Definition next (value : string) (w : World) : World :=
  set_debounced (Some value) w.

(** [showToast(message)] *)
Definition showToast (message : string) (w : World) : World :=
  set_toastTimers (S (toastTimers w))
    (on_app (fun a => set_showErrorToast true (set_toastMessage message a))
       w).

(** [handleSearchError(error, term)] *)
Definition handleSearchError (error : SearchError) (term : string)
    (w : World) : World :=
  let w :=
    on_app (fun a =>
              set_errorMessage (classify error)
                (set_results []
                   (set_errorCount (S (errorCount a))
                      (set_hasError true (set_isLoading false a))))) w in
  if (3 <=? errorCount (app w))%nat then showToast msg_toast w else w.

(** The first [tap] of the outer pipe. *)
Definition track (term : string) (a : App) : App :=
  if truthy (trim term) then
    set_requestCount (S (requestCount a))
      (set_hasError false (set_isLoading true a))
  else a.

(** The projection of [switchMap] together with the subscriber:
    the previous inner subscription is dropped first. *)
Definition switchTo (term : string) (w : World) : World :=
  let w := set_inner None w in
  if negb (truthy (trim term)) then on_app (handleSearchResponse []) w
  else issue term (S (pipes w)) 0 (set_pipes (S (pipes w)) w).

(** The timer of [debounceTime] fires: the held value settles and runs
    through [distinctUntilChanged], [tap] and [switchMap]. *)
Definition settle (w : World) : World :=
  match debounced w with
  | None => w
  | Some v =>
      let w := log_settled v (set_debounced None w) in
      match distinctKey w with
      | Some k =>
          if String.eqb k v then w
          else switchTo v (on_app (track v) (set_distinctKey (Some v) w))
      | None => switchTo v (on_app (track v) (set_distinctKey (Some v) w))
      end
  end.

(** The current attempt of the inner pipeline fails with [error]:
    while [soFar] stays within [count], [retry] calls [delay], whose
    notifier emits at once, and subscribes to the source again, so a
    new request goes out in the same callback; otherwise [catchError]
    runs and its replacement value reaches the subscriber. *)
Definition attemptFailed (error : SearchError) (i : Inner) (w : World)
    : World :=
  if (retried i <? MAX_RETRIES)%nat then
    issue (iterm i) (ipipe i) (S (retried i)) w
  else
    on_app (handleSearchResponse [])
      (handleSearchError error (iterm i) (set_inner None w)).

(** The current attempt delivers a response: the latency [tap], then
    the subscriber. *)
Definition attemptSucceeded (response : list string) (elapsed : Z)
    (w : World) : World :=
  on_app (fun a => handleSearchResponse response
                     (set_latency (Some elapsed) a))
    (set_inner None w).

(** The request the active inner subscription is waiting for. *)
Definition awaited (w : World) : option nat :=
  match inner w with
  | Some i => match phase i with
              | Awaiting r => Some r
              | Backoff => None
              end
  | None => None
  end.

(** Delivery of an outcome for request [r].  A request whose
    subscription was dropped (by [switchMap], by [timeout] or because
    the attempt already ended) has no subscriber left. *)
Definition deliver (r : nat) (k : Inner -> World -> World) (w : World)
    : World :=
  match inner w with
  | Some i =>
      match phase i with
      | Awaiting r' => if (r =? r')%nat then k i w else w
      | Backoff => w
      end
  | None => w
  end.

(** A notifier of [retry] emitting later: the source is subscribed
    again if the pipeline is still waiting for it. *)
Definition retryNow (pipe : nat) (w : World) : World :=
  match inner w with
  | Some i =>
      match phase i with
      | Backoff =>
          if (pipe =? ipipe i)%nat
          then issue (iterm i) (ipipe i) (retried i) w
          else w
      | Awaiting _ => w
      end
  | None => w
  end.

(** [onSearchInput(event)], on [event.target.value]. *)
Definition onSearchInput (value : string) (w : World) : World :=
  let w := on_app (fun a => set_selectedIndex (-1) (set_searchTerm value a))
             w in
  let w := if hasError (app w)
           then on_app (fun a => set_errorMessage EmptyString
                                   (set_hasError false a)) w
           else w in
  let w := if truthy value || negb (hasSearched (app w))
           then on_app (set_showDropdown true) w
           else w in
  next value w.

(** [onFocus()] *)
Definition onFocus (w : World) : World :=
  let w := match blurTimeout w with
           | Some h =>
               set_blur (blurTimeout w)
                 (filter (fun t => negb (t =? h)%nat) (blurTimers w))
                 (nextTimer w) w
           | None => w
           end in
  on_app (set_showDropdown true) w.

(** [onBlur()] *)
Definition onBlur (w : World) : World :=
  set_blur (Some (nextTimer w)) (nextTimer w :: blurTimers w)
    (S (nextTimer w)) w.

(** The callback that [onBlur] scheduled. *)
Definition blurElapsed (t : nat) (w : World) : World :=
  if existsb (Nat.eqb t) (blurTimers w) then
    on_app (fun a => set_selectedIndex (-1) (set_showDropdown false a))
      (set_blur (blurTimeout w)
         (filter (fun t' => negb (t' =? t)%nat) (blurTimers w))
         (nextTimer w) w)
  else w.

(** [selectResult(result)] *)
Definition selectResult (result : string) (w : World) : World :=
  emit result
    (on_app (fun a => set_showDropdown false
                        (set_searchTerm result
                           (set_selectedValue (Some result) a))) w).

Inductive Key : Type :=
| ArrowDown | ArrowUp | Enter | Escape | Tab | OtherKey.

(** [onKeyDown(event)], on [event.key].  The calls into the DOM
    ([preventDefault], [blur] of the input element) are outside the
    component's fields. *)
Definition onKeyDown (key : Key) (w : World) : World :=
  let opens := match key with
               | ArrowDown | Enter => true
               | _ => false
               end in
  if negb (showDropdown (app w)) && opens
  then on_app (set_showDropdown true) w
  else
    match key with
    | ArrowDown => on_app (navigateResults 1) w
    | ArrowUp => on_app (navigateResults (-1)) w
    | Enter =>
        let a := app w in
        if (0 <=? selectedIndex a) && truthy_at (results a) (selectedIndex a)
        then match index (results a) (selectedIndex a) with
             | Some r => selectResult r w
             | None => w
             end
        else if len (results a) =? 1
        then match index (results a) 0 with
             | Some r => selectResult r w
             | None => w
             end
        else w
    | Escape =>
        on_app (fun a => set_selectedIndex (-1) (set_showDropdown false a)) w
    | Tab => on_app (set_showDropdown false) w
    | OtherKey => w
    end.

(** [retry()] *)
Definition retry (w : World) : World :=
  if truthy (trim (searchTerm (app w))) then
    next (searchTerm (app w))
      (on_app (fun a => set_errorMessage EmptyString (set_hasError false a))
         w)
  else w.

(** [clearSearch()] *)
Definition clearSearch (w : World) : World :=
  on_app (fun a =>
            set_selectedValue None
              (set_hasError false
                 (set_hasSearched false
                    (set_selectedIndex (-1)
                       (set_results []
                          (set_searchTerm EmptyString a)))))) w.

(** [selectSuggestion(fruit)] *)
Definition selectSuggestion (fruit : string) (w : World) : World :=
  next fruit (on_app (set_searchTerm fruit) w).

(** [removeSelection()] *)
Definition removeSelection (w : World) : World :=
  clearSearch (on_app (set_selectedValue None) w).

(** [dismissToast()] *)
Definition dismissToast (w : World) : World :=
  on_app (set_showErrorToast false) w.

(** The callback that [showToast] scheduled. *)
Definition toastElapsed (w : World) : World :=
  match toastTimers w with
  | O => w
  | S n => on_app (set_showErrorToast false) (set_toastTimers n w)
  end.

(** Everything that can call into the component: DOM events, public
    methods, timers and network callbacks. *)
Inductive Event : Type :=
| Input (value : string)
| Focus
| Blur
| BlurElapsed (timer : nat)
| KeyDown (key : Key)
| DebounceElapsed
| Response (request : nat) (body : list string) (elapsed : Z)
| Failure (request : nat) (status : Z) (payload : option string)
| TimeoutElapsed (request : nat)
| RetryNotified (pipe : nat)
| RetryClicked
| ClearClicked
| ResultClicked (result : string)
| SuggestionClicked (fruit : string)
| RemoveClicked
| ToastDismissed
| ToastElapsed.

Definition step (w : World) (e : Event) : World :=
  match e with
  | Input value => onSearchInput value w
  | Focus => onFocus w
  | Blur => onBlur w
  | BlurElapsed t => blurElapsed t w
  | KeyDown key => onKeyDown key w
  | DebounceElapsed => settle w
  | Response r body elapsed =>
      deliver r (fun _ => attemptSucceeded body elapsed) w
  | Failure r status payload =>
      deliver r (attemptFailed (HttpErrorResponse status payload)) w
  | TimeoutElapsed r => deliver r (attemptFailed TimeoutError) w
  | RetryNotified pipe => retryNow pipe w
  | RetryClicked => retry w
  | ClearClicked => clearSearch w
  | ResultClicked result => selectResult result w
  | SuggestionClicked fruit => selectSuggestion fruit w
  | RemoveClicked => removeSelection w
  | ToastDismissed => dismissToast w
  | ToastElapsed => toastElapsed w
  end.

(** The world after a sequence of events, oldest first. *)
Definition run (events : list Event) : World :=
  fold_left step events initial_world.

(** States the controller can be in. *)
Definition reachable (w : World) : Prop :=
  exists events, w = run events.

End Controller.

(* ------------------------------------------------------------------ *)
(** ** Properties of the highlighting utility *)

Section HighlightFacts.
Import JsString Highlight.

Lemma backslash_is_special : is_special backslash = true.
Proof. reflexivity. Qed.

(** The class of [escapeRegex] holds exactly the syntax characters of
    the pattern grammar: checked on every code unit. *)
Lemma special_is_syntax (c : ascii) : is_special c = is_syntax c.
Proof. destruct c as [[] [] [] [] [] [] [] []]; reflexivity. Qed.

Lemma not_special_not_backslash (c : ascii) :
  is_special c = false -> Ascii.eqb c backslash = false.
Proof.
  intros Hc. destruct (Ascii.eqb_spec c backslash) as [E | E].
  - subst c. rewrite backslash_is_special in Hc. discriminate.
  - reflexivity.
Qed.

(** The escaped query, read back as a pattern, is the query itself as
    a literal. *)
Lemma parse_escapeRegex (str : list ascii) :
  parse_literal (escapeRegex str) = Some str.
Proof.
  unfold parse_literal.
  induction str as [| c r IH]; simpl; [reflexivity |].
  destruct (is_special c) eqn:Hc; simpl.
  - rewrite <- special_is_syntax, Hc, IH. reflexivity.
  - rewrite (not_special_not_backslash c Hc), <- special_is_syntax, Hc, IH.
    reflexivity.
Qed.

(** A decomposition of [text] by a left-to-right search for [lit]:
    a code unit is copied only where [lit] does not match, and a
    marked piece is a match of [lit]. *)
Inductive scanned (lit : list ascii) : list ascii -> list segment -> Prop :=
| scanned_end : scanned lit [] []
| scanned_plain c rest segs :
    matches_at lit (c :: rest) = false ->
    scanned lit rest segs ->
    scanned lit (c :: rest) (Plain c :: segs)
| scanned_marked m rest segs :
    List.length m = List.length lit ->
    matches_at lit m = true ->
    scanned lit rest segs ->
    scanned lit (m ++ rest) (Marked m :: segs).

Lemma matches_at_length (lit text : list ascii) :
  matches_at lit text = true -> (List.length lit <= List.length text)%nat.
Proof.
  revert text. induction lit as [| l ls IH]; intros text H; simpl in *.
  - lia.
  - destruct text as [| t ts]; [discriminate |].
    apply andb_true_iff in H as [_ H]. apply IH in H. simpl. lia.
Qed.

Lemma matches_at_firstn (lit text : list ascii) :
  matches_at lit text = true ->
  matches_at lit (firstn (List.length lit) text) = true.
Proof.
  revert text. induction lit as [| l ls IH]; intros text H; simpl in *.
  - reflexivity.
  - destruct text as [| t ts]; [discriminate |].
    apply andb_true_iff in H as [Hc H]. simpl.
    rewrite Hc. simpl. auto.
Qed.

Lemma scan_scanned (fuel : nat) (lit text : list ascii) :
  lit <> [] -> (List.length text <= fuel)%nat ->
  scanned lit text (scan fuel lit text).
Proof.
  intros Hlit. revert text.
  induction fuel as [| fuel IH]; intros text Hlen.
  - destruct text; [| simpl in Hlen; lia].
    destruct lit; [congruence |]. constructor.
  - destruct text as [| c rest].
    + destruct lit; [congruence |]. constructor.
    + cbn [scan]. destruct (matches_at lit (c :: rest)) eqn:Hm.
      * pose proof (matches_at_length _ _ Hm) as Hle.
        pose proof (matches_at_firstn _ _ Hm) as Hf.
        assert (Hn : (1 <= List.length lit)%nat).
        { destruct lit; [congruence | simpl; lia]. }
        assert (Hs : scanned lit (c :: rest)
                       (Marked (firstn (List.length lit) (c :: rest))
                          :: scan fuel lit
                               (skipn (List.length lit) (c :: rest)))).
        { rewrite <- (firstn_skipn (List.length lit) (c :: rest)) at 1.
          constructor.
          - rewrite length_firstn. lia.
          - assumption.
          - apply IH. rewrite length_skipn.
            assert (Hc : List.length (c :: rest) = S (List.length rest))
              by reflexivity.
            lia. }
        destruct lit; [congruence | exact Hs].
      * constructor; [assumption |]. apply IH. simpl in Hlen. lia.
Qed.

Lemma scanned_erase (lit text : list ascii) (segs : list segment) :
  scanned lit text segs -> erase segs = text.
Proof.
  induction 1; simpl; [reflexivity | |].
  - f_equal. assumption.
  - f_equal. assumption.
Qed.

Lemma scanned_marked_match (lit text : list ascii) (segs : list segment) :
  scanned lit text segs ->
  forall m, In (Marked m) segs ->
    List.length m = List.length lit /\ matches_at lit m = true.
Proof.
  induction 1; simpl; intros m' Hin.
  - contradiction.
  - destruct Hin as [Heq | Hin]; [discriminate | auto].
  - destruct Hin as [Heq | Hin]; [| auto].
    injection Heq as <-. auto.
Qed.

Lemma scanned_plain_no_match (lit text : list ascii) (segs : list segment) :
  scanned lit text segs ->
  forall pre c post, segs = pre ++ Plain c :: post ->
    matches_at lit (c :: erase post) = false.
Proof.
  induction 1 as [| c0 rest segs Hm Hs IH | m rest segs Hl Hm Hs IH];
    intros pre c post Heq.
  - destruct pre; discriminate.
  - destruct pre as [| p pre]; simpl in Heq.
    + injection Heq as -> ->. rewrite (scanned_erase _ _ _ Hs). assumption.
    + injection Heq as _ Heq. eapply IH; eassumption.
  - destruct pre as [| p pre]; simpl in Heq; [discriminate |].
    injection Heq as _ Heq. eapply IH; eassumption.
Qed.

Lemma blank_not_empty (term : string) :
  blank term = false -> list_ascii_of_string term <> [].
Proof.
  intros H. destruct term as [| c r].
  - vm_compute in H. discriminate.
  - simpl. discriminate.
Qed.

End HighlightFacts.

Section HighlightClaims.
Import JsString Highlight.

(** Case-insensitive equality of two code units as the claim means
    it, stated without the canonicalisation of the pattern matcher: the
    two are the same, or one is a small letter (a-z, or a Latin-1 small
    letter 224-254 other than the division sign) and the other its
    capital, 32 below. *)
Definition small_letter (n : nat) : Prop :=
  (97 <= n <= 122)%nat \/ ((224 <= n <= 254)%nat /\ n <> 247%nat).

Definition same_up_to_case (a b : ascii) : Prop :=
  let x := nat_of_ascii a in
  let y := nat_of_ascii b in
  x = y \/ (small_letter x /\ x = (y + 32)%nat)
        \/ (small_letter y /\ y = (x + 32)%nat).

(** The emphasis marker as the claim means it, written out. *)
Definition emphasised (s : segment) : list ascii :=
  match s with
  | Plain c => [c]
  | Marked m =>
      list_ascii_of_string "<mark>" ++ m ++ list_ascii_of_string "</mark>"
  end.

(** The part of the text a piece stands for. *)
Definition piece_text (s : segment) : list ascii :=
  match s with
  | Plain c => [c]
  | Marked m => m
  end.

Lemma canonicalize_cases (a : ascii) :
  let x := nat_of_ascii a in
  (small_letter x /\ canonicalize a = (x - 32)%nat) \/
  (~ small_letter x /\ canonicalize a = x).
Proof.
  unfold canonicalize, small_letter. cbv zeta.
  set (x := nat_of_ascii a).
  destruct (97 <=? x)%nat eqn:A1; destruct (x <=? 122)%nat eqn:A2;
    destruct (224 <=? x)%nat eqn:A3; destruct (x <=? 254)%nat eqn:A4;
    destruct (x =? 247)%nat eqn:A5; cbn [andb negb];
    repeat match goal with
      | H : (_ <=? _)%nat = true |- _ => apply Nat.leb_le in H
      | H : (_ <=? _)%nat = false |- _ => apply Nat.leb_gt in H
      | H : (_ =? _)%nat = true |- _ => apply Nat.eqb_eq in H
      | H : (_ =? _)%nat = false |- _ => apply Nat.eqb_neq in H
      end;
    first [ left; split; [lia | reflexivity]
          | right; split; [lia | reflexivity] ].
Qed.

(** The test of the matcher is case-insensitive equality. *)
Lemma ci_eqb_same (a b : ascii) :
  ci_eqb a b = true <-> same_up_to_case a b.
Proof.
  unfold ci_eqb. rewrite Nat.eqb_eq.
  destruct (canonicalize_cases a) as [[Sa Ea] | [Sa Ea]];
    destruct (canonicalize_cases b) as [[Sb Eb] | [Sb Eb]];
    cbv zeta in *; rewrite Ea, Eb;
    unfold same_up_to_case, small_letter in *; cbv zeta; lia.
Qed.

Lemma matches_at_same (q : list ascii) :
  forall s,
    matches_at q s = true <->
    exists m rest, s = m ++ rest /\ Forall2 same_up_to_case q m.
Proof.
  induction q as [| a q IH]; intros s; simpl.
  - split; [| reflexivity].
    intros _. exists [], s. split; [reflexivity | constructor].
  - destruct s as [| b s].
    + split; [discriminate |].
      intros [m [rest [E F]]]. inversion F; subst. discriminate.
    + rewrite andb_true_iff, ci_eqb_same, IH. split.
      * intros [Hab [m [rest [E F]]]]. exists (b :: m), rest.
        split; [rewrite E; reflexivity | constructor; assumption].
      * intros [m [rest [E F]]]. inversion F as [| x y l l' Hxy Hl]; subst.
        injection E as -> E. split; [assumption |].
        exists l', rest. split; assumption.
Qed.

Lemma whole_match_same (q m : list ascii) :
  List.length m = List.length q -> matches_at q m = true ->
  Forall2 same_up_to_case q m.
Proof.
  intros Hl Hm. apply matches_at_same in Hm as [m' [rest [E F]]].
  pose proof (Forall2_length F) as Hl'.
  assert (Hr : rest = []).
  { apply (f_equal (@List.length ascii)) in E. rewrite length_app in E.
    destruct rest; [reflexivity | simpl in E; lia]. }
  subst rest. rewrite app_nil_r in E. subst m'. exact F.
Qed.

(** C9 as the specification words it: every occurrence of the query in
    the text, wherever it lies, is one of the wrapped pieces. *)
Definition every_occurrence_wrapped (text term : string) : Prop :=
  let q := list_ascii_of_string term in
  let t := list_ascii_of_string text in
  forall pre m post,
    t = pre ++ m ++ post -> Forall2 same_up_to_case q m ->
    exists before after,
      replaceAll q t = before ++ Marked m :: after /\
      flat_map piece_text before = pre.

(** C9, counterexample.  In "banana" the query "ana" occurs at the
    second and at the fourth letter; the search resumes after the first
    match, so the second occurrence, which overlaps it, stays
    unwrapped. *)
Lemma every_occurrence_wrapped_fails :
  ~ every_occurrence_wrapped "banana" "ana" /\
  highlightMatch "banana" "ana" = "b<mark>ana</mark>na"%string.
Proof.
  split; [| vm_compute; reflexivity].
  intros H.
  destruct (H (list_ascii_of_string "ban") (list_ascii_of_string "ana") []
              eq_refl) as [before [after [E Hb]]].
  { repeat constructor; left; reflexivity. }
  vm_compute in E.
  destruct before as [| s1 [| s2 [| s3 [| s4 [| s5 before]]]]];
    simpl in E; try discriminate E;
    injection E as E1 E2; subst; simpl in Hb; try discriminate Hb;
    try discriminate E2.
  all: try (injection E2 as E2 E3; try discriminate E2; try discriminate E3).
Qed.

(** C9, amended.  For a blank query [highlightMatch] returns the text
    unchanged.  For any other query the output is the text cut into
    pieces by a search from left to right that resumes after each
    match, each wrapped piece written between the opening and the
    closing marker and every other code unit copied, where: putting the
    pieces back together gives the text; every wrapped piece equals the
    query up to case; and no occurrence of the query up to case starts
    at a code unit that was copied (an occurrence left unwrapped
    starts inside a wrapped one).  The escaped query, read as a
    pattern, is the query as a literal, whatever characters it
    contains. *)
Theorem highlightMatch_wraps_occurrences (text term : string) :
  let q := list_ascii_of_string term in
  (blank term = true -> highlightMatch text term = text) /\
  (blank term = false ->
     exists segs : list segment,
       highlightMatch text term
       = string_of_list_ascii (flat_map emphasised segs) /\
       flat_map piece_text segs = list_ascii_of_string text /\
       (forall m, In (Marked m) segs -> Forall2 same_up_to_case q m) /\
       (forall pre c post, segs = pre ++ Plain c :: post ->
          forall m rest,
            c :: flat_map piece_text post = m ++ rest ->
            ~ Forall2 same_up_to_case q m)) /\
  parse_literal (escapeRegex q) = Some q.
Proof.
  intros q. split; [| split].
  - intros Hb. unfold highlightMatch. rewrite Hb. reflexivity.
  - intros Hb. unfold highlightMatch. rewrite Hb.
    rewrite parse_escapeRegex. fold q.
    pose proof (scan_scanned (List.length (list_ascii_of_string text)) q
                  (list_ascii_of_string text)
                  (blank_not_empty term Hb) (le_n _)) as Hs.
    exists (replaceAll q (list_ascii_of_string text)).
    split; [reflexivity |]. split; [| split].
    + exact (scanned_erase _ _ _ Hs).
    + intros m Hin.
      destruct (scanned_marked_match _ _ _ Hs m Hin) as [Hl Hm].
      apply whole_match_same; assumption.
    + intros pre c post Hsplit m rest Hm HF.
      pose proof (scanned_plain_no_match _ _ _ Hs pre c post Hsplit) as Hn.
      assert (Ht : matches_at q (c :: erase post) = true).
      { apply matches_at_same. exists m, rest. split; assumption. }
      rewrite Ht in Hn. discriminate.
  - apply parse_escapeRegex.
Qed.

Lemma highlightMatch_wraps_occurrences_witness :
  highlightMatch "apple" "  " = "apple"%string /\
  exists segs : list segment,
    highlightMatch "Pineapple (ap.)" "AP."
    = string_of_list_ascii (flat_map emphasised segs) /\
    flat_map piece_text segs = list_ascii_of_string "Pineapple (ap.)".
Proof.
  split.
  - apply (proj1 (highlightMatch_wraps_occurrences "apple" "  ")).
    reflexivity.
  - destruct (proj1 (proj2 (highlightMatch_wraps_occurrences
                              "Pineapple (ap.)" "AP.")) eq_refl)
      as [segs [H1 [H2 _]]].
    exists segs. split; assumption.
Defined.

Example highlight_apple_AP :
  highlightMatch "apple" "AP" = "<mark>ap</mark>ple"%string.
Proof. reflexivity. Qed.

Example highlight_literal_dot :
  highlightMatch "a.b axb A.B" "a.b"
  = "<mark>a.b</mark> axb <mark>A.B</mark>"%string.
Proof. reflexivity. Qed.

End HighlightClaims.

(* ------------------------------------------------------------------ *)
(** ** Keyboard navigation and commit *)

Section KeyboardClaims.
Import JsString Controller.

Lemma hasResults_nonempty (a : App) :
  results a <> [] -> hasResults a = true.
Proof.
  unfold hasResults, len. destruct (results a); [congruence |].
  intros _. simpl. reflexivity.
Qed.

(** With the dropdown open the arrow keys are [navigateResults]. *)
Lemma arrows_navigate (w : World) :
  showDropdown (app w) = true ->
  onKeyDown ArrowDown w = on_app (navigateResults 1) w /\
  onKeyDown ArrowUp w = on_app (navigateResults (-1)) w.
Proof.
  intros H. unfold onKeyDown. rewrite H. simpl. auto.
Qed.

(** The wrap law of [navigateResults] itself.  On a non-empty result
    list of length [n]: a step of +1 from [n-1] gives -1 and a step of
    -1 from -1 gives [n-1]; anywhere below the last item +1 adds one,
    and anywhere from the first item on -1 subtracts one.  Neither
    changes the result list.  With the dropdown open the two arrow
    keys are these two steps. *)
Lemma navigateResults_wrap_law (w : World) :
  results (app w) <> [] ->
  let a := app w in
  let n := len (results a) in
  let down := navigateResults 1 a in
  let up := navigateResults (-1) a in
  (showDropdown a = true ->
     app (onKeyDown ArrowDown w) = down /\
     app (onKeyDown ArrowUp w) = up) /\
  (selectedIndex a = n - 1 -> selectedIndex down = -1) /\
  (selectedIndex a = -1 -> selectedIndex up = n - 1) /\
  (-1 <= selectedIndex a < n - 1 ->
     selectedIndex down = selectedIndex a + 1) /\
  (0 <= selectedIndex a <= n - 1 ->
     selectedIndex up = selectedIndex a - 1) /\
  results down = results a /\ results up = results a.
Proof.
  intros Hne a n down up. split.
  { intros Hopen. destruct (arrows_navigate w Hopen) as [-> ->].
    split; reflexivity. }
  subst down up a.
  unfold navigateResults. rewrite (hasResults_nonempty _ Hne). simpl.
  fold n.
  assert (Hn : 0 < n).
  { subst n. unfold len.
    destruct (results (app w)); [congruence | simpl; lia]. }
  repeat split; intros;
    repeat match goal with
      | |- context [if ?b then _ else _] =>
          let E := fresh "E" in destruct b eqn:E
      end; simpl; try reflexivity; try lia.
Qed.

(** [ArrowUp] is not among the keys that open a closed dropdown: it
    is [navigateResults(-1)] in every state. *)
Lemma arrow_up_navigates (w : World) :
  onKeyDown ArrowUp w = on_app (navigateResults (-1)) w.
Proof.
  unfold onKeyDown. rewrite andb_false_r. reflexivity.
Qed.

(** On a closed dropdown [ArrowDown] returns before the [switch]. *)
Lemma arrow_down_opens (w : World) :
  showDropdown (app w) = false ->
  onKeyDown ArrowDown w = on_app (set_showDropdown true) w.
Proof.
  intros H. unfold onKeyDown. rewrite H. reflexivity.
Qed.

(** The wrap law read on key presses, as the specification words it:
    on a non-empty result list of length [n], Down from [n-1] gives
    -1, Up from -1 gives [n-1], and strictly inside the range Down
    adds one and Up subtracts one. *)
Definition arrow_keys_wrap (w : World) : Prop :=
  let a := app w in
  let n := len (results a) in
  let down := app (onKeyDown ArrowDown w) in
  let up := app (onKeyDown ArrowUp w) in
  results a <> [] ->
  (selectedIndex a = n - 1 -> selectedIndex down = -1) /\
  (selectedIndex a = -1 -> selectedIndex up = n - 1) /\
  (-1 < selectedIndex a < n - 1 ->
     selectedIndex down = selectedIndex a + 1 /\
     selectedIndex up = selectedIndex a - 1).

(** Two results are shown, the cursor is moved to the last one and Tab
    hides the dropdown. *)
Definition tab_on_last_trace : list Event :=
  [ Input "a"%string; DebounceElapsed;
    Response 0 ["apple"; "apricot"]%string 412;
    KeyDown ArrowDown; KeyDown ArrowDown; KeyDown Tab ].

(** Three results are shown, the cursor is moved to the second one and
    Tab hides the dropdown. *)
Definition tab_inside_trace : list Event :=
  [ Input "a"%string; DebounceElapsed;
    Response 0 ["apple"; "apricot"; "banana"]%string 412;
    KeyDown ArrowDown; KeyDown ArrowDown; KeyDown Tab ].

(** C7, counterexample.  In two reachable states with a closed
    dropdown Down does not move the cursor: from the last of two
    results it stays at 1 instead of wrapping to -1, and from the
    second of three results it stays at 1 instead of going to 2. *)
Lemma arrow_keys_wrap_fails :
  (~ arrow_keys_wrap (run tab_on_last_trace) /\
   len (results (app (run tab_on_last_trace))) = 2 /\
   selectedIndex (app (run tab_on_last_trace)) = 1 /\
   selectedIndex (app (onKeyDown ArrowDown (run tab_on_last_trace))) = 1) /\
  (~ arrow_keys_wrap (run tab_inside_trace) /\
   len (results (app (run tab_inside_trace))) = 3 /\
   selectedIndex (app (run tab_inside_trace)) = 1 /\
   selectedIndex (app (onKeyDown ArrowDown (run tab_inside_trace))) = 1).
Proof.
  split.
  - split; [| vm_compute; auto].
    intros H.
    destruct (H ltac:(vm_compute; discriminate)) as [Hd _].
    specialize (Hd ltac:(vm_compute; reflexivity)).
    vm_compute in Hd. discriminate.
  - split; [| vm_compute; auto].
    intros H.
    destruct (H ltac:(vm_compute; discriminate)) as [_ [_ Hin]].
    destruct (Hin ltac:(vm_compute; split; reflexivity)) as [Hd _].
    vm_compute in Hd. discriminate.
Qed.

(** C7, amended.  On a non-empty result list of length [n]:
    with the dropdown open, Down from [n-1] gives -1 and Down from any
    cursor below [n-1] adds one, and the dropdown stays open; with the
    dropdown closed, Down only opens the dropdown and changes nothing
    else, so the cursor stays where it is; in either case Up from -1
    gives [n-1], Up from any cursor from 0 to [n-1] subtracts one, and
    Up leaves the dropdown as it is.  Neither key changes the result
    list. *)
Theorem arrow_keys_move_cursor (w : World) :
  results (app w) <> [] ->
  let a := app w in
  let n := len (results a) in
  let down := app (onKeyDown ArrowDown w) in
  let up := app (onKeyDown ArrowUp w) in
  (showDropdown a = true ->
     (selectedIndex a = n - 1 -> selectedIndex down = -1) /\
     (-1 <= selectedIndex a < n - 1 ->
        selectedIndex down = selectedIndex a + 1) /\
     showDropdown down = true) /\
  (showDropdown a = false ->
     onKeyDown ArrowDown w = on_app (set_showDropdown true) w /\
     selectedIndex down = selectedIndex a /\
     showDropdown down = true) /\
  (selectedIndex a = -1 -> selectedIndex up = n - 1) /\
  (0 <= selectedIndex a <= n - 1 ->
     selectedIndex up = selectedIndex a - 1) /\
  showDropdown up = showDropdown a /\
  results down = results a /\ results up = results a.
Proof.
  intros Hne a n down up.
  destruct (navigateResults_wrap_law w Hne)
    as [_ [Hd1 [Hu1 [Hd2 [Hu2 [Hrd Hru]]]]]].
  assert (Eup : up = navigateResults (-1) a).
  { subst up. rewrite arrow_up_navigates. reflexivity. }
  assert (Skeep : forall d,
            showDropdown (navigateResults d a) = showDropdown a).
  { intros d. unfold navigateResults.
    destruct (negb (hasResults a)); [reflexivity |].
    cbv zeta. destruct (selectedIndex a + d <? -1); [reflexivity |].
    destruct (len (results a) <=? selectedIndex a + d); reflexivity. }
  pose proof (Skeep (-1)) as Sup. pose proof (Skeep 1) as Sdown.
  split; [| split; [| split; [| split; [| split; [| split]]]]].
  - intros Hopen.
    assert (Edown : down = navigateResults 1 a).
    { subst down. rewrite (proj1 (arrows_navigate w Hopen)). reflexivity. }
    rewrite Edown. split; [exact Hd1 |]. split; [exact Hd2 |].
    rewrite Sdown. exact Hopen.
  - intros Hclosed. subst down.
    rewrite (arrow_down_opens w Hclosed).
    split; [reflexivity |]. split; reflexivity.
  - rewrite Eup. exact Hu1.
  - rewrite Eup. exact Hu2.
  - rewrite Eup. exact Sup.
  - subst down. destruct (showDropdown a) eqn:Hs.
    + rewrite (proj1 (arrows_navigate w Hs)). exact Hrd.
    + rewrite (arrow_down_opens w Hs). reflexivity.
  - rewrite Eup. exact Hru.
Qed.

Lemma arrow_keys_move_cursor_witness :
  let w := run tab_on_last_trace in
  selectedIndex (app (onKeyDown ArrowDown w)) = selectedIndex (app w) /\
  selectedIndex (app (onKeyDown ArrowUp w)) = selectedIndex (app w) - 1.
Proof.
  intros w.
  destruct (arrow_keys_move_cursor w ltac:(vm_compute; discriminate))
    as [_ [Hc [_ [Hu _]]]].
  split.
  - exact (proj1 (proj2 (Hc ltac:(vm_compute; reflexivity)))).
  - apply Hu. vm_compute. split; discriminate.
Defined.

Lemma index_Some_nonneg {A : Type} (l : list A) (i : Z) (x : A) :
  index l i = Some x -> 0 <= i /\ In x l.
Proof.
  unfold index. destruct (i <? 0) eqn:E; [discriminate |].
  intros H. split; [lia | exact (nth_error_In _ _ H)].
Qed.

Lemma selectResult_fields (r : string) (w : World) :
  let w' := selectResult r w in
  emitted w' = r :: emitted w /\
  selectedValue (app w') = Some r /\
  searchTerm (app w') = r /\
  showDropdown (app w') = false /\
  results (app w') = results (app w) /\
  selectedIndex (app w') = selectedIndex (app w).
Proof. cbv zeta. repeat split. Qed.

Lemma len_one {A : Type} (l : list A) :
  len l = 1 -> exists r, l = [r].
Proof.
  unfold len. destruct l as [| r [| r' l]]; intros H.
  - simpl in H. lia.
  - exists r. reflexivity.
  - change (List.length (r :: r' :: l)) with (S (S (List.length l))) in H.
    lia.
Qed.

(** What Enter does once the dropdown is open: the three outcomes of
    the [Enter] case. *)
Lemma enter_cases (w : World) :
  showDropdown (app w) = true ->
  let a := app w in
  (exists r, index (results a) (selectedIndex a) = Some r /\
             truthy r = true /\ onKeyDown Enter w = selectResult r w) \/
  (exists r, results a = [r] /\
             truthy_at (results a) (selectedIndex a) = false /\
             onKeyDown Enter w = selectResult r w) \/
  (truthy_at (results a) (selectedIndex a) = false /\
   len (results a) <> 1 /\ onKeyDown Enter w = w) \/
  (selectedIndex a < 0 /\ len (results a) <> 1 /\ onKeyDown Enter w = w) \/
  (selectedIndex a < 0 /\ exists r, results a = [r] /\
     onKeyDown Enter w = selectResult r w).
Proof.
  intros Hopen a. unfold onKeyDown. rewrite Hopen. simpl. fold a.
  destruct (0 <=? selectedIndex a) eqn:Hi; simpl.
  - destruct (truthy_at (results a) (selectedIndex a)) eqn:Ht.
    + left. unfold truthy_at in Ht.
      destruct (index (results a) (selectedIndex a)) as [r |];
        [| discriminate].
      exists r. auto.
    + destruct (len (results a) =? 1) eqn:Hl.
      * right; left. apply Z.eqb_eq in Hl.
        destruct (len_one _ Hl) as [r Hr]. exists r. rewrite Hr. auto.
      * right; right; left. apply Z.eqb_neq in Hl. auto.
  - destruct (len (results a) =? 1) eqn:Hl.
    + right; right; right; right. apply Z.leb_gt in Hi.
      split; [lia |]. apply Z.eqb_eq in Hl.
      destruct (len_one _ Hl) as [r Hr]. exists r. rewrite Hr. auto.
    + right; right; right; left. apply Z.leb_gt in Hi.
      apply Z.eqb_neq in Hl. repeat split; auto; lia.
Qed.

(** C10.  Enter never changes the result list; if it emits a
    selection event, it emits exactly one, whose value is an element
    of the result list and is the committed value; and when the cursor
    indexes no result and the list does not have exactly one element,
    Enter emits nothing and commits nothing. *)
Theorem enter_commits_only_results (w : World) :
  let w' := onKeyDown Enter w in
  results (app w') = results (app w) /\
  (emitted w' = emitted w \/
   exists v, emitted w' = v :: emitted w /\
             In v (results (app w)) /\
             selectedValue (app w') = Some v) /\
  (index (results (app w)) (selectedIndex (app w)) = None ->
   len (results (app w)) <> 1 ->
   emitted w' = emitted w /\
   selectedValue (app w') = selectedValue (app w)).
Proof.
  cbv zeta.
  destruct (showDropdown (app w)) eqn:Hopen.
  - destruct (enter_cases w Hopen)
      as [[r [Hi [_ ->]]] | [[r [Hr [_ ->]]] | [[_ [_ ->]]
         | [[_ [_ ->]] | [_ [r [Hr ->]]]]]]].
    + split; [reflexivity |]. split.
      * right. exists r. repeat split.
        exact (proj2 (index_Some_nonneg _ _ _ Hi)).
      * intros Hn. rewrite Hn in Hi. discriminate.
    + split; [reflexivity |]. split.
      * right. exists r. repeat split. rewrite Hr. left. reflexivity.
      * intros _ Hl. rewrite Hr in Hl. unfold len in Hl. simpl in Hl. lia.
    + auto.
    + auto.
    + split; [reflexivity |]. split.
      * right. exists r. repeat split. rewrite Hr. left. reflexivity.
      * intros _ Hl. rewrite Hr in Hl. unfold len in Hl. simpl in Hl. lia.
  - unfold onKeyDown. rewrite Hopen. simpl. auto.
Qed.

Lemma enter_commits_only_results_witness :
  let w := on_app (fun a => set_showDropdown true
                              (set_selectedIndex 2
                                 (set_results ["kiwi"; "lime"]%string a)))
             initial_world in
  emitted (onKeyDown Enter w) = emitted w /\
  selectedValue (app (onKeyDown Enter w)) = selectedValue (app w).
Proof.
  intros w.
  apply (proj2 (proj2 (enter_commits_only_results w))).
  - reflexivity.
  - unfold len. simpl. lia.
Defined.

End KeyboardClaims.

Section CommitClaims.
Import JsString Controller.
Local Open Scope string_scope.

(** C8 as the specification words it: whenever the cursor is at 0 or
    above, Enter commits the result at the cursor and closes the
    dropdown. *)
Definition enter_commits_at_cursor (w : World) : Prop :=
  0 <= selectedIndex (app w) ->
  exists r,
    index (results (app w)) (selectedIndex (app w)) = Some r /\
    emitted (onKeyDown Enter w) = r :: emitted w /\
    showDropdown (app (onKeyDown Enter w)) = false.

(** The results of an older search are still shown, the cursor is
    moved to the third of them, and then a two-element response
    replaces the list. *)
Definition stale_cursor_trace : list Event :=
  [ Input "a"; DebounceElapsed;
    Response 0 ["apple"; "apricot"; "banana"] 412;
    Input "ap"; DebounceElapsed;
    KeyDown ArrowDown; KeyDown ArrowDown; KeyDown ArrowDown;
    Response 1 ["apple"; "apricot"] 388 ].

(** The cursor is on the first result and Tab hides the dropdown. *)
Definition closed_dropdown_trace : list Event :=
  [ Input "a"; DebounceElapsed;
    Response 0 ["apple"; "apricot"] 412;
    KeyDown ArrowDown; KeyDown Tab ].

(** The endpoint returns an empty string among its matches and the
    cursor is on it. *)
Definition empty_match_trace : list Event :=
  [ Input "a"; DebounceElapsed;
    Response 0 [EmptyString; "apple"] 412;
    KeyDown ArrowDown ].

(** C8, counterexample.  In each of three reachable states the cursor
    is at 0 or above and Enter commits nothing: a cursor left behind
    by a shorter result list, a closed dropdown (Enter only opens it),
    and a cursor on an empty string. *)
Lemma enter_commits_at_cursor_fails :
  ~ enter_commits_at_cursor (run stale_cursor_trace) /\
  ~ enter_commits_at_cursor (run closed_dropdown_trace) /\
  ~ enter_commits_at_cursor (run empty_match_trace).
Proof.
  repeat split; intros H;
    destruct (H ltac:(vm_compute; discriminate)) as [r [_ [He _]]];
    vm_compute in He; discriminate.
Qed.

(** C8, amended.  With the dropdown open: if the cursor indexes an
    existing, non-empty result, Enter commits that result, whatever
    the number of results; if the cursor is -1 and there is exactly one
    result, Enter commits that one.  Committing sets the selection and
    the query text to the value, closes the dropdown and emits the
    value once. *)
Theorem enter_commits_indexed_result (w : World) :
  showDropdown (app w) = true ->
  let a := app w in
  (forall r, index (results a) (selectedIndex a) = Some r ->
             truthy r = true ->
             onKeyDown Enter w = selectResult r w) /\
  (forall r, results a = [r] ->
             selectedIndex a = -1 ->
             onKeyDown Enter w = selectResult r w) /\
  (forall r, let w' := selectResult r w in
             emitted w' = r :: emitted w /\
             selectedValue (app w') = Some r /\
             searchTerm (app w') = r /\
             showDropdown (app w') = false).
Proof.
  intros Hopen a. split; [| split].
  - intros r Hi Ht. unfold onKeyDown. rewrite Hopen. simpl. fold a.
    destruct (index_Some_nonneg _ _ _ Hi) as [Hn _].
    apply Z.leb_le in Hn. rewrite Hn. unfold truthy_at. rewrite Hi, Ht.
    reflexivity.
  - intros r Hr Hc. unfold onKeyDown. rewrite Hopen. simpl. fold a.
    rewrite Hc, Hr. reflexivity.
  - intros r. cbv zeta. repeat split.
Qed.

Lemma enter_commits_indexed_result_witness :
  let w := run [ Input "appl"; DebounceElapsed; Response 0 ["apple"] 412 ] in
  onKeyDown Enter w = selectResult "apple" w.
Proof.
  intros w.
  apply (proj1 (proj2 (enter_commits_indexed_result w eq_refl)) "apple").
  - reflexivity.
  - reflexivity.
Defined.

End CommitClaims.

(* ------------------------------------------------------------------ *)
(** ** Error classification *)

Section ErrorClaims.
Import JsString Controller.
Local Open Scope string_scope.

(** The precedence list as the specification words it: any status
    from 500 to 599 is a server fault, and a message field is used as
    it is. *)
Definition spec_message (error : SearchError) : string :=
  match error with
  | TimeoutError => msg_timeout
  | HttpErrorResponse status payload =>
      if (status =? 0)%Z then msg_connect
      else if ((500 <=? status) && (status <=? 599))%Z then msg_server
      else if (status =? 404)%Z then msg_not_found
      else match payload with
           | Some m => m
           | None => msg_unexpected
           end
  end.

Lemma handleSearchError_message (error : SearchError) (term : string)
    (w : World) :
  errorMessage (app (handleSearchError error term w)) = classify error.
Proof.
  unfold handleSearchError.
  destruct (3 <=? _)%nat; reflexivity.
Qed.

(** Three attempts of the first query fail with status 503 and no
    body. *)
Definition unavailable_trace : list Event :=
  [ Input "a"; DebounceElapsed;
    Failure 0 503 None; RetryNotified 1;
    Failure 1 503 None; RetryNotified 1;
    Failure 2 503 None ].

(** C6, counterexample.  A 503 without a message gets the
    unexpected-error message, a 503 with a message gets that message,
    and an empty message field is not used. *)
Lemma error_message_precedence_fails :
  errorMessage (app (run unavailable_trace)) = msg_unexpected /\
  spec_message (HttpErrorResponse 503 None) = msg_server /\
  classify (HttpErrorResponse 503 (Some "Service Unavailable"))
    = "Service Unavailable" /\
  classify (HttpErrorResponse 400 (Some EmptyString)) = msg_unexpected /\
  ~ (forall error term w,
       errorMessage (app (handleSearchError error term w))
       = spec_message error).
Proof.
  repeat split; try reflexivity.
  intros H.
  specialize (H (HttpErrorResponse 503 None) "a" initial_world).
  vm_compute in H. discriminate.
Qed.

(** C6, amended.  The message set on a failure is chosen by the first
    matching cause: timeout; status 0; status 500; status 404; a
    non-empty message field of the error body, used verbatim; and the
    unexpected-error message otherwise (so also for the other 5xx
    statuses without such a field). *)
Theorem error_message_precedence (error : SearchError) (term : string)
    (w : World) :
  let m := errorMessage (app (handleSearchError error term w)) in
  match error with
  | TimeoutError => m = msg_timeout
  | HttpErrorResponse status payload =>
      (status = 0 -> m = msg_connect) /\
      (status = 500 -> m = msg_server) /\
      (status = 404 -> m = msg_not_found) /\
      (status <> 0 -> status <> 500 -> status <> 404 ->
       match payload with
       | Some p => if truthy p then m = p else m = msg_unexpected
       | None => m = msg_unexpected
       end)
  end.
Proof.
  cbv zeta. rewrite handleSearchError_message.
  destruct error as [| status payload]; [reflexivity |].
  unfold classify. repeat split.
  - intros ->. reflexivity.
  - intros ->. reflexivity.
  - intros ->. reflexivity.
  - intros H0 H5 H4.
    apply Z.eqb_neq in H0, H5, H4. rewrite H0, H5, H4.
    destruct payload as [p |]; [| reflexivity].
    destruct (truthy p); reflexivity.
Qed.

Lemma error_message_precedence_witness :
  errorMessage
    (app (handleSearchError (HttpErrorResponse 0 None) "a" initial_world))
  = msg_connect.
Proof.
  apply (proj1 (error_message_precedence (HttpErrorResponse 0 None) "a"
                  initial_world)).
  reflexivity.
Defined.

End ErrorClaims.

(* ------------------------------------------------------------------ *)
(** ** The request pipeline: invariants of reachable states *)

Section PipelineInvariant.
Import JsString Controller.

(** Request identifiers in the log decrease from the newest on and
    stay below [n]. *)
Fixpoint ids_below (n : nat) (l : list Request) : Prop :=
  match l with
  | [] => True
  | rq :: l' => (rid rq < n)%nat /\ ids_below (rid rq) l'
  end.

Lemma ids_below_weaken (l : list Request) :
  forall n m, (n <= m)%nat -> ids_below n l -> ids_below m l.
Proof.
  destruct l as [| rq l]; simpl; intros n m Hnm H; [exact I |].
  destruct H as [H1 H2]. split; [lia | assumption].
Qed.

Lemma ids_below_In (l : list Request) :
  forall n rq, ids_below n l -> In rq l -> (rid rq < n)%nat.
Proof.
  induction l as [| x l IH]; simpl; intros n rq H Hin; [contradiction |].
  destruct H as [H1 H2]. destruct Hin as [-> | Hin]; [assumption |].
  specialize (IH _ _ H2 Hin). lia.
Qed.

Record Inv (w : World) : Prop := mkInv {
  inv_ids : ids_below (nextRequest w) (sent w);
  inv_pipes : Forall (fun rq => (rpipe rq <= pipes w)%nat) (sent w);
  inv_key : distinctKey w = hd_error (settled w);
  inv_inner :
    forall i, inner w = Some i ->
      ipipe i = pipes w /\
      distinctKey w = Some (iterm i) /\
      blank (iterm i) = false /\
      hasError (app w) = false /\
      (forall r, phase i = Awaiting r ->
         exists rest, sent w = mkRequest r (iterm i) (ipipe i) :: rest)
}.

Lemma Inv_initial : Inv initial_world.
Proof.
  constructor; simpl; auto. intros i H. discriminate.
Qed.

(** Handlers that only assign component fields, and never set
    [hasError], keep the invariant. *)
Lemma Inv_on_app (f : App -> App) (w : World) :
  (hasError (app w) = false -> hasError (f (app w)) = false) ->
  Inv w -> Inv (on_app f w).
Proof.
  intros Hf [H1 H2 H3 H4]. constructor; simpl; try assumption.
  intros i Hi. destruct (H4 i Hi) as [Ha [Hb [Hc [Hd He]]]].
  repeat split; auto.
Qed.

Lemma Inv_set_debounced (v : option string) (w : World) :
  Inv w -> Inv (set_debounced v w).
Proof. intros [H1 H2 H3 H4]. constructor; simpl; assumption. Qed.

Lemma Inv_set_blur (h : option nat) (l : list nat) (n : nat) (w : World) :
  Inv w -> Inv (set_blur h l n w).
Proof. intros [H1 H2 H3 H4]. constructor; simpl; assumption. Qed.

Lemma Inv_set_toastTimers (n : nat) (w : World) :
  Inv w -> Inv (set_toastTimers n w).
Proof. intros [H1 H2 H3 H4]. constructor; simpl; assumption. Qed.

Lemma Inv_emit (v : string) (w : World) : Inv w -> Inv (emit v w).
Proof. intros [H1 H2 H3 H4]. constructor; simpl; assumption. Qed.

Lemma Inv_inner_None (w : World) : Inv w -> Inv (set_inner None w).
Proof.
  intros [H1 H2 H3 H4]. constructor; simpl; try assumption.
  intros i Hi. discriminate.
Qed.

Lemma navigateResults_hasError (d : Z) (a : App) :
  hasError (navigateResults d a) = hasError a.
Proof.
  unfold navigateResults.
  repeat match goal with
    | |- context [if ?b then _ else _] => destruct b
    end; reflexivity.
Qed.

Lemma handleSearchResponse_hasError (body : list string) (a : App) :
  hasError a = false -> hasError (handleSearchResponse body a) = false.
Proof.
  intros H. unfold handleSearchResponse.
  repeat match goal with
    | |- context [if ?b then _ else _] => destruct b
    end; simpl; auto.
Qed.

Lemma Inv_onSearchInput (v : string) (w : World) :
  Inv w -> Inv (onSearchInput v w).
Proof.
  intros H. unfold onSearchInput, next.
  apply Inv_set_debounced.
  repeat match goal with
    | |- Inv (if ?b then _ else _) => destruct b
    | |- Inv (on_app _ _) => apply Inv_on_app; [simpl; auto |]
    end; assumption.
Qed.

Lemma Inv_onKeyDown (k : Key) (w : World) : Inv w -> Inv (onKeyDown k w).
Proof.
  intros H. unfold onKeyDown, selectResult.
  destruct (negb (showDropdown (app w)) && _).
  - apply Inv_on_app; [simpl; auto | assumption].
  - destruct k;
      repeat match goal with
        | |- Inv (if ?b then _ else _) => destruct b
        | |- Inv (match ?o with Some _ => _ | None => _ end) => destruct o
        | |- Inv (emit _ _) => apply Inv_emit
        | |- Inv (on_app (navigateResults _) _) =>
            apply Inv_on_app;
            [rewrite navigateResults_hasError; auto |]
        | |- Inv (on_app _ _) => apply Inv_on_app; [simpl; auto |]
        end; assumption.
Qed.

Lemma Inv_handleSearchError (e : SearchError) (t : string) (w : World) :
  inner w = None -> Inv w -> Inv (handleSearchError e t w).
Proof.
  intros Hn [H1 H2 H3 H4]. unfold handleSearchError, showToast.
  destruct (3 <=? _)%nat; constructor; simpl; try assumption;
    intros i Hi; rewrite Hn in Hi; discriminate.
Qed.

Lemma Inv_issue_retry (i : Inner) (n : nat) (w : World) :
  inner w = Some i -> Inv w ->
  Inv (issue (iterm i) (ipipe i) n w).
Proof.
  intros Hi [H1 H2 H3 H4].
  destruct (H4 i Hi) as [Ha [Hb [Hc [Hd He]]]].
  constructor; simpl.
  - split; [lia | assumption].
  - constructor; [simpl; lia | assumption].
  - assumption.
  - intros j Hj. injection Hj as <-. simpl. repeat split; auto.
    intros r Hr. injection Hr as <-. eexists. reflexivity.
Qed.

Lemma Inv_switch (v : string) (w : World) :
  Inv w ->
  Inv (switchTo v
         (on_app (track v)
            (set_distinctKey (Some v)
               (log_settled v (set_debounced None w))))).
Proof.
  intros [H1 H2 H3 H4]. unfold switchTo, track.
  destruct (truthy (trim v)) eqn:Hv; simpl.
  - constructor; simpl.
    + split; [lia | assumption].
    + constructor; [simpl; lia |].
      eapply Forall_impl; [| exact H2]. simpl. intros; lia.
    + reflexivity.
    + intros j Hj. injection Hj as <-. simpl. repeat split; auto.
      * unfold blank. rewrite Hv. reflexivity.
      * intros r Hr. injection Hr as <-. eexists. reflexivity.
  - constructor; simpl; try assumption; [reflexivity |].
    intros j Hj. discriminate.
Qed.

Lemma Inv_settle (w : World) : Inv w -> Inv (settle w).
Proof.
  intros H. unfold settle.
  destruct (debounced w) as [v |] eqn:Hd; [| assumption].
  cbv zeta.
  change (distinctKey (log_settled v (set_debounced None w)))
    with (distinctKey w).
  destruct (distinctKey w) as [k |] eqn:Hk.
  - destruct (String.eqb_spec k v) as [-> | Hne].
    + destruct H as [H1 H2 H3 H4].
      constructor; simpl; try assumption; try (rewrite Hk; reflexivity).
    + apply Inv_switch. assumption.
  - apply Inv_switch. assumption.
Qed.

Lemma Inv_deliver_failure (r : nat) (e : SearchError) (w : World) :
  Inv w -> Inv (deliver r (attemptFailed e) w).
Proof.
  intros H. unfold deliver.
  destruct (inner w) as [i |] eqn:Hi; [| assumption].
  destruct (phase i) as [r' |] eqn:Hp; [| assumption].
  destruct (r =? r')%nat; [| assumption].
  unfold attemptFailed. destruct (retried i <? MAX_RETRIES)%nat.
  - apply Inv_issue_retry; assumption.
  - apply Inv_on_app.
    + apply handleSearchResponse_hasError.
    + apply Inv_handleSearchError; [reflexivity |].
      apply Inv_inner_None. assumption.
Qed.

Lemma Inv_deliver_success (r : nat) (body : list string) (t : Z)
    (w : World) :
  Inv w -> Inv (deliver r (fun _ => attemptSucceeded body t) w).
Proof.
  intros H. unfold deliver.
  destruct (inner w) as [i |] eqn:Hi; [| assumption].
  destruct (phase i) as [r' |] eqn:Hp; [| assumption].
  destruct (r =? r')%nat; [| assumption].
  unfold attemptSucceeded. apply Inv_on_app.
  - intros Hh. apply handleSearchResponse_hasError. exact Hh.
  - apply Inv_inner_None. assumption.
Qed.

Lemma Inv_step (w : World) (e : Event) : Inv w -> Inv (step w e).
Proof.
  intros H. destruct e; simpl.
  - apply Inv_onSearchInput; assumption.
  - unfold onFocus. apply Inv_on_app; [simpl; auto |].
    destruct (blurTimeout w); [apply Inv_set_blur |]; assumption.
  - apply Inv_set_blur; assumption.
  - unfold blurElapsed. destruct (existsb _ _); [| assumption].
    apply Inv_on_app; [simpl; auto |]. apply Inv_set_blur; assumption.
  - apply Inv_onKeyDown; assumption.
  - apply Inv_settle; assumption.
  - apply Inv_deliver_success; assumption.
  - apply Inv_deliver_failure; assumption.
  - apply Inv_deliver_failure; assumption.
  - unfold retryNow.
    destruct (inner w) as [i |] eqn:Hi; [| assumption].
    destruct (phase i); [assumption |].
    destruct (pipe =? ipipe i)%nat; [| assumption].
    apply Inv_issue_retry; assumption.
  - unfold retry. destruct (truthy _); [| assumption].
    apply Inv_set_debounced. apply Inv_on_app; [simpl; auto | assumption].
  - apply Inv_on_app; [simpl; auto | assumption].
  - unfold selectResult. apply Inv_emit.
    apply Inv_on_app; [simpl; auto | assumption].
  - unfold selectSuggestion, next. apply Inv_set_debounced.
    apply Inv_on_app; [simpl; auto | assumption].
  - unfold removeSelection, clearSearch.
    apply Inv_on_app; [simpl; auto |].
    apply Inv_on_app; [simpl; auto | assumption].
  - apply Inv_on_app; [simpl; auto | assumption].
  - unfold toastElapsed. destruct (toastTimers w); [assumption |].
    apply Inv_on_app; [simpl; auto |].
    apply Inv_set_toastTimers; assumption.
Qed.

Lemma Inv_fold (events : list Event) :
  forall w, Inv w -> Inv (fold_left step events w).
Proof.
  induction events as [| e events IH]; simpl; intros w H; [assumption |].
  apply IH. apply Inv_step. assumption.
Qed.

Lemma Inv_reachable (w : World) : reachable w -> Inv w.
Proof.
  intros [events ->]. apply Inv_fold. exact Inv_initial.
Qed.

(** The inner subscription after an event is the one before it, none,
    or one that waits for a request. *)
Definition awaits (o : option Inner) : Prop :=
  forall i, o = Some i -> exists r, phase i = Awaiting r.

Lemma awaits_issue (t : string) (p n : nat) (w : World) :
  awaits (inner (issue t p n w)).
Proof.
  intros i H. simpl in H. injection H as <-. eexists. reflexivity.
Qed.

Lemma awaits_None : awaits None.
Proof. intros i H. discriminate. Qed.

Lemma awaits_deliver (r : nat) (k : Inner -> World -> World) (w : World) :
  (forall i, awaits (inner (k i w))) ->
  awaits (inner w) -> awaits (inner (deliver r k w)).
Proof.
  intros Hk H. unfold deliver.
  destruct (inner w) as [i |] eqn:Hi; [| rewrite Hi; exact H].
  destruct (phase i); [| rewrite Hi; exact H].
  destruct (r =? request)%nat; [apply Hk | rewrite Hi; exact H].
Qed.

Lemma awaits_attemptFailed (e : SearchError) (i : Inner) (w : World) :
  awaits (inner (attemptFailed e i w)).
Proof.
  unfold attemptFailed.
  destruct (retried i <? MAX_RETRIES)%nat; [apply awaits_issue |].
  unfold handleSearchError. cbv zeta.
  match goal with
  | |- context [if ?b then _ else _] => destruct b
  end; exact awaits_None.
Qed.

Lemma awaits_step (w : World) (e : Event) :
  awaits (inner w) -> awaits (inner (step w e)).
Proof.
  intros H. destruct e; simpl.
  - unfold onSearchInput. cbv zeta.
    repeat match goal with
           | |- context [if ?b then _ else _] => destruct b
           end; exact H.
  - unfold onFocus. destruct (blurTimeout w); exact H.
  - exact H.
  - unfold blurElapsed. destruct (existsb _ _); exact H.
  - unfold onKeyDown. cbv zeta.
    destruct (negb (showDropdown (app w)) && _); [exact H |].
    destruct key; try exact H.
    destruct (_ && _).
    + destruct (index _ _); exact H.
    + destruct (_ =? _); [| exact H]. destruct (index _ _); exact H.
  - unfold settle. destruct (debounced w) as [v |]; [| exact H].
    cbv zeta.
    assert (Hs : forall w', awaits (inner (switchTo v w'))).
    { intros w'. unfold switchTo. cbv zeta.
      destruct (negb (truthy (trim v)));
        [exact awaits_None | apply awaits_issue]. }
    destruct (distinctKey _) as [k |]; [| apply Hs].
    destruct (String.eqb k v); [exact H | apply Hs].
  - apply awaits_deliver; [| exact H]. intros i. exact awaits_None.
  - apply awaits_deliver; [| exact H]. intros i.
    apply awaits_attemptFailed.
  - apply awaits_deliver; [| exact H]. intros i.
    apply awaits_attemptFailed.
  - unfold retryNow. destruct (inner w) as [i |] eqn:Hi;
      [| rewrite Hi; exact H].
    destruct (phase i); [rewrite Hi; exact H |].
    destruct (pipe =? ipipe i)%nat; [apply awaits_issue |].
    rewrite Hi; exact H.
  - unfold retry. destruct (truthy _); exact H.
  - exact H.
  - exact H.
  - exact H.
  - exact H.
  - exact H.
  - unfold toastElapsed. destruct (toastTimers w); exact H.
Qed.

(** No reachable state has its pipeline waiting for a notifier of
    [retry]: the phase [Backoff] is never entered, and the event
    [RetryNotified] changes nothing in any reachable state. *)
Lemma backoff_unreachable (events : list Event) :
  awaits (inner (run events)) /\
  forall p, step (run events) (RetryNotified p) = run events.
Proof.
  assert (H : awaits (inner (run events))).
  { unfold run.
    assert (G : forall w, awaits (inner w) ->
                awaits (inner (fold_left step events w))).
    { induction events as [| e l IH]; intros w Hw; [exact Hw |].
      simpl. apply IH. apply awaits_step. exact Hw. }
    apply G. exact awaits_None. }
  split; [exact H |].
  intros p. simpl. unfold retryNow.
  destruct (inner (run events)) as [i |] eqn:Hi; [| reflexivity].
  destruct (H i eq_refl) as [r Hr]. rewrite Hr. reflexivity.
Qed.

End PipelineInvariant.

(* ------------------------------------------------------------------ *)
(** ** Supersession of request pipelines *)

Section Supersession.
Import JsString Controller.

(** Request [r] of pipeline [p] can no longer be heard: it is not the
    request the inner subscription waits for, and [p] is not the
    pipeline that is subscribed. *)
Definition dead (r p : nat) (w : World) : Prop :=
  (r < nextRequest w)%nat /\
  awaited w <> Some r /\
  (p <= pipes w)%nat /\
  (forall i, inner w = Some i -> ipipe i <> p).

(** Every callback addressed to the request or its pipeline leaves
    the whole state as it is. *)
Definition callbacks_ignored (r p : nat) (w : World) : Prop :=
  (forall body t, step w (Response r body t) = w) /\
  (forall status payload, step w (Failure r status payload) = w) /\
  step w (TimeoutElapsed r) = w /\
  step w (RetryNotified p) = w.

Lemma deliver_not_awaited (r : nat) (k : Inner -> World -> World)
    (w : World) :
  awaited w <> Some r -> deliver r k w = w.
Proof.
  unfold awaited, deliver. intros H.
  destruct (inner w) as [i |]; [| reflexivity].
  destruct (phase i) as [r' |]; [| reflexivity].
  destruct (Nat.eqb_spec r r') as [-> | _]; [congruence | reflexivity].
Qed.

Lemma dead_ignored (r p : nat) (w : World) :
  dead r p w -> callbacks_ignored r p w.
Proof.
  intros [_ [Ha [_ Hp]]]. repeat split; intros; simpl.
  - apply deliver_not_awaited; assumption.
  - apply deliver_not_awaited; assumption.
  - apply deliver_not_awaited; assumption.
  - unfold retryNow. destruct (inner w) as [i |] eqn:Hi; [| reflexivity].
    destruct (phase i); [reflexivity |].
    destruct (Nat.eqb_spec p (ipipe i)) as [E | _]; [| reflexivity].
    exfalso. apply (Hp i eq_refl). symmetry. exact E.
Qed.

Lemma dead_switch (r p : nat) (v : string) (w w0 : World) :
  nextRequest w = nextRequest w0 -> pipes w = pipes w0 ->
  (r < nextRequest w0)%nat -> (p <= pipes w0)%nat ->
  dead r p (switchTo v w).
Proof.
  intros Hn Hp Hr Hpp. unfold switchTo, dead, awaited.
  destruct (negb (truthy (trim v))); simpl.
  - rewrite Hn, Hp.
    split; [lia |]. split; [discriminate |]. split; [lia |].
    intros i Hi. discriminate.
  - rewrite Hn, Hp.
    split; [lia |]. split; [| split; [lia |]].
    + intros E. injection E as E. lia.
    + intros i Hi. injection Hi as <-. simpl. lia.
Qed.

Lemma dead_settle (r p : nat) (w : World) :
  dead r p w -> dead r p (settle w).
Proof.
  intros H. unfold settle.
  destruct (debounced w) as [v |]; [| assumption]. cbv zeta.
  destruct H as [Hr [Ha [Hp Hi]]].
  change (distinctKey (log_settled v (set_debounced None w)))
    with (distinctKey w).
  destruct (distinctKey w) as [k |].
  - destruct (String.eqb k v).
    + repeat split; assumption.
    + apply (dead_switch r p v _ w); auto.
  - apply (dead_switch r p v _ w); auto.
Qed.

Lemma dead_deliver (r p r0 : nat) (k : Inner -> World -> World)
    (w : World) :
  (forall i, inner w = Some i -> dead r p (k i w)) ->
  dead r p w -> dead r p (deliver r0 k w).
Proof.
  intros Hk H. unfold deliver.
  destruct (inner w) as [i |] eqn:Hi; [| assumption].
  destruct (phase i) as [r' |]; [| assumption].
  destruct (r0 =? r')%nat; [| assumption].
  apply Hk. reflexivity.
Qed.

Lemma dead_attemptFailed (r p : nat) (e : SearchError) (i : Inner)
    (w : World) :
  inner w = Some i -> dead r p w -> dead r p (attemptFailed e i w).
Proof.
  intros Hi [Hr [Ha [Hp Hq]]]. unfold attemptFailed.
  destruct (retried i <? MAX_RETRIES)%nat.
  - unfold issue, dead, awaited. simpl.
    split; [lia |]. split; [| split; [assumption |]].
    + intros E. injection E as E. lia.
    + intros j Hj. injection Hj as <-. simpl. apply Hq. assumption.
  - unfold handleSearchError, showToast.
    destruct (3 <=? _)%nat; unfold dead, awaited; simpl;
      (split; [assumption |]; split; [discriminate |];
       split; [assumption |]; intros j Hj; discriminate).
Qed.

Lemma dead_step (r p : nat) (w : World) (e : Event) :
  dead r p w -> dead r p (step w e).
Proof.
  intros H. destruct e; simpl.
  - unfold onSearchInput, next.
    destruct (hasError _); destruct (_ || _); exact H.
  - unfold onFocus. destruct (blurTimeout w); exact H.
  - exact H.
  - unfold blurElapsed. destruct (existsb _ _); exact H.
  - unfold onKeyDown, selectResult.
    destruct (negb _ && _); [exact H |].
    destruct key;
      repeat match goal with
        | |- dead _ _ (if ?b then _ else _) => destruct b
        | |- dead _ _ (match ?o with Some _ => _ | None => _ end) =>
            destruct o
        end; exact H.
  - apply dead_settle; assumption.
  - apply dead_deliver; [| assumption].
    intros i Hi. destruct H as [Hr [Ha [Hp Hq]]].
    unfold attemptSucceeded, dead, awaited. simpl.
    split; [assumption |]. split; [discriminate |].
    split; [assumption |]. intros j Hj. discriminate.
  - apply dead_deliver; [| assumption].
    intros i Hi. apply dead_attemptFailed; assumption.
  - apply dead_deliver; [| assumption].
    intros i Hi. apply dead_attemptFailed; assumption.
  - unfold retryNow. destruct (inner w) as [i |] eqn:Hi; [| assumption].
    destruct (phase i); [assumption |].
    destruct (pipe =? ipipe i)%nat; [| assumption].
    destruct H as [Hr [Ha [Hp Hq]]].
    unfold issue, dead, awaited. simpl.
    split; [lia |]. split; [| split; [assumption |]].
    + intros E. injection E as E. lia.
    + intros j Hj. injection Hj as <-. simpl. apply Hq. assumption.
  - unfold retry. destruct (truthy _); exact H.
  - exact H.
  - exact H.
  - exact H.
  - exact H.
  - exact H.
  - unfold toastElapsed. destruct (toastTimers w); exact H.
Qed.

Lemma dead_fold (r p : nat) (events : list Event) :
  forall w, dead r p w -> dead r p (fold_left step events w).
Proof.
  induction events as [| e events IH]; simpl; intros w H; [assumption |].
  apply IH. apply dead_step. assumption.
Qed.

(** A settled value that differs from the previous one ends every
    request issued so far. *)
Lemma settle_supersedes (w : World) (v : string) (rq : Request) :
  Inv w -> In rq (sent w) ->
  debounced w = Some v -> distinctKey w <> Some v ->
  dead (rid rq) (rpipe rq) (settle w).
Proof.
  intros HI Hin Hd Hk.
  pose proof (ids_below_In _ _ _ (inv_ids w HI) Hin) as Hr.
  pose proof (proj1 (Forall_forall _ _) (inv_pipes w HI) rq Hin) as Hp.
  simpl in Hp. unfold settle. rewrite Hd. cbv zeta.
  change (distinctKey (log_settled v (set_debounced None w)))
    with (distinctKey w).
  destruct (distinctKey w) as [k |].
  - destruct (String.eqb_spec k v) as [-> | _]; [congruence |].
    apply (dead_switch _ _ v _ w); auto.
  - apply (dead_switch _ _ v _ w); auto.
Qed.

Lemma run_app (events1 events2 : list Event) :
  run (events1 ++ events2) = fold_left step events2 (run events1).
Proof. unfold run. apply fold_left_app. Qed.

(** C1.  In every reachable state: (1) the one request whose outcome
    the pipeline still listens to is the newest request issued, it
    belongs to the pipeline started last, and its query is the most
    recently settled query; (2) a response, failure or timeout of any
    other request changes nothing at all; (3) once a newer query has
    settled (one that differs from the previously settled value, so
    that it is processed), every request issued before it and every
    retry of its pipeline stay ignored in all later states, whatever
    the order in which their outcomes arrive. *)
Theorem latest_pipeline_only :
  (forall events r,
     let w := run events in
     awaited w = Some r ->
     exists i rest,
       inner w = Some i /\
       sent w = mkRequest r (iterm i) (pipes w) :: rest /\
       hd_error (settled w) = Some (iterm i) /\
       blank (iterm i) = false) /\
  (forall events r,
     let w := run events in
     awaited w <> Some r ->
     (forall body t, step w (Response r body t) = w) /\
     (forall status payload, step w (Failure r status payload) = w) /\
     step w (TimeoutElapsed r) = w) /\
  (forall events1 events2 v rq,
     In rq (sent (run events1)) ->
     debounced (run events1) = Some v ->
     distinctKey (run events1) <> Some v ->
     callbacks_ignored (rid rq) (rpipe rq)
       (run (events1 ++ DebounceElapsed :: events2))).
Proof.
  split; [| split].
  - intros events r w Ha.
    assert (HI : Inv w) by (apply Inv_reachable; exists events; reflexivity).
    unfold awaited in Ha.
    destruct (inner w) as [i |] eqn:Hi; [| discriminate].
    destruct (phase i) as [r' |] eqn:Hp; [| discriminate].
    injection Ha as ->.
    destruct (inv_inner w HI i Hi) as [Hpipe [Hkey [Hb [_ Hs]]]].
    destruct (Hs r Hp) as [rest Hrest].
    exists i, rest. repeat split; auto.
    + rewrite Hrest, Hpipe. reflexivity.
    + rewrite <- (inv_key w HI). assumption.
  - intros events r w Ha. repeat split; intros; simpl;
      apply deliver_not_awaited; assumption.
  - intros events1 events2 v rq Hin Hd Hk.
    rewrite run_app. simpl. apply dead_ignored. apply dead_fold.
    apply (settle_supersedes _ v); auto.
    apply Inv_reachable. exists events1. reflexivity.
Qed.

End Supersession.

Section SupersessionWitness.
Import JsString Controller.
Local Open Scope string_scope.

Lemma latest_pipeline_only_witness :
  callbacks_ignored 0 1
    (run ([ Input "a"; DebounceElapsed; Input "ap" ]
            ++ DebounceElapsed :: [])).
Proof.
  refine (proj2 (proj2 latest_pipeline_only)
            [ Input "a"; DebounceElapsed; Input "ap" ] [] "ap"
            (mkRequest 0 "a" 1) _ _ _).
  - vm_compute. left. reflexivity.
  - vm_compute. reflexivity.
  - vm_compute. discriminate.
Defined.

(** The response to the superseded request arrives after the newer
    one was answered, and before: the results are those of the newer
    query in both orders. *)
Example late_response_discarded :
  results (app (run [ Input "a"; DebounceElapsed; Input "ap";
                      DebounceElapsed; Response 1 ["apple"] 301;
                      Response 0 ["apple"; "banana"] 977 ]))
    = ["apple"] /\
  results (app (run [ Input "a"; DebounceElapsed; Input "ap";
                      DebounceElapsed; Response 0 ["apple"; "banana"] 977;
                      Response 1 ["apple"] 301 ]))
    = ["apple"].
Proof. split; vm_compute; reflexivity. Qed.

End SupersessionWitness.

(* ------------------------------------------------------------------ *)
(** ** Outcomes of a settled query *)

Section Outcomes.
Import JsString Controller.
Local Open Scope string_scope.

(** C3 as the specification words it. *)
Definition blank_settle_clears (w : World) : Prop :=
  forall v, debounced w = Some v -> blank v = true ->
    let w' := step w DebounceElapsed in
    sent w' = sent w /\
    results (app w') = [] /\
    hasError (app w') = false.

(** A search succeeded and the input was then emptied. *)
Definition cleared_input_trace : list Event :=
  [ Input "a"; DebounceElapsed; Response 0 ["apple"; "banana"] 412;
    Input EmptyString ].

(** The input was emptied while a search was still running, and that
    search failed for good before the empty value settled. *)
Definition late_failure_trace : list Event :=
  [ Input "a"; DebounceElapsed; Input EmptyString;
    Failure 0 500 None; RetryNotified 1;
    Failure 1 500 None; RetryNotified 1;
    Failure 2 500 None ].

(** C3, counterexample.  When the empty query settles after a
    successful search the earlier results stay, and when it settles
    after a late failure the error flag stays set. *)
Lemma blank_settle_clears_fails :
  ~ blank_settle_clears (run cleared_input_trace) /\
  ~ blank_settle_clears (run late_failure_trace) /\
  results (app (step (run cleared_input_trace) DebounceElapsed))
    = ["apple"; "banana"] /\
  hasError (app (step (run late_failure_trace) DebounceElapsed)) = true.
Proof.
  split; [| split; [| split; vm_compute; reflexivity]].
  - intros H.
    destruct (H EmptyString ltac:(vm_compute; reflexivity)
                ltac:(vm_compute; reflexivity)) as [_ [Hr _]].
    vm_compute in Hr. discriminate.
  - intros H.
    destruct (H EmptyString ltac:(vm_compute; reflexivity)
                ltac:(vm_compute; reflexivity)) as [_ [_ He]].
    vm_compute in He. discriminate.
Qed.

(** C3, amended.  When a blank query settles no request is issued and
    neither the error flag nor the error message changes.  If the
    value repeats the previously settled one nothing happens at all.
    Otherwise the running pipeline is dropped, the loading flag is
    cleared, and the result list is emptied only if the query text of
    the component is not blank at that moment; if it is blank the
    list stays as it was. *)
Theorem blank_settle_outcome (w : World) (v : string) :
  debounced w = Some v -> blank v = true ->
  let w' := step w DebounceElapsed in
  sent w' = sent w /\
  nextRequest w' = nextRequest w /\
  hasError (app w') = hasError (app w) /\
  errorMessage (app w') = errorMessage (app w) /\
  (distinctKey w = Some v -> app w' = app w /\ inner w' = inner w) /\
  (distinctKey w <> Some v ->
     inner w' = None /\
     isLoading (app w') = false /\
     hasSearched (app w') = true /\
     results (app w')
     = if blank (searchTerm (app w)) then results (app w) else []).
Proof.
  intros Hd Hb. simpl. unfold settle. rewrite Hd. cbv zeta.
  change (distinctKey (log_settled v (set_debounced None w)))
    with (distinctKey w).
  assert (Ht : truthy (trim v) = false).
  { unfold blank in Hb. destruct (truthy (trim v)); [discriminate | auto]. }
  assert (Hsw :
    let w1 := switchTo v (on_app (track v) (set_distinctKey (Some v)
                (log_settled v (set_debounced None w)))) in
    sent w1 = sent w /\ nextRequest w1 = nextRequest w /\
    hasError (app w1) = hasError (app w) /\
    errorMessage (app w1) = errorMessage (app w) /\
    inner w1 = None /\ isLoading (app w1) = false /\
    hasSearched (app w1) = true /\
    results (app w1)
    = if blank (searchTerm (app w)) then results (app w) else []).
  { unfold switchTo, track, handleSearchResponse, blank. rewrite Ht. simpl.
    destruct (truthy (trim (searchTerm (app w)))); simpl;
      repeat split; reflexivity. }
  cbv zeta in Hsw.
  destruct Hsw as [S1 [S2 [S3 [S4 [S5 [S6 [S7 S8]]]]]]].
  destruct (distinctKey w) as [k |].
  - destruct (String.eqb_spec k v) as [-> | Hne].
    + simpl. do 4 (split; [reflexivity |]). split.
      * intros _. split; reflexivity.
      * intros Hc. congruence.
    + split; [exact S1 |]. split; [exact S2 |]. split; [exact S3 |].
      split; [exact S4 |]. split.
      * intros Hc. congruence.
      * intros _. auto.
  - split; [exact S1 |]. split; [exact S2 |]. split; [exact S3 |].
    split; [exact S4 |]. split.
    + intros Hc. discriminate.
    + intros _. auto.
Qed.

Lemma blank_settle_outcome_witness :
  let w := run cleared_input_trace in
  sent (step w DebounceElapsed) = sent w /\
  results (app (step w DebounceElapsed)) = ["apple"; "banana"].
Proof.
  intros w.
  destruct (blank_settle_outcome w EmptyString
              ltac:(vm_compute; reflexivity) ltac:(vm_compute; reflexivity))
    as [H1 [_ [_ [_ [_ H6]]]]].
  split; [exact H1 |].
  destruct (H6 ltac:(vm_compute; discriminate)) as [_ [_ [_ H]]].
  exact H.
Defined.







End Outcomes.

(* ------------------------------------------------------------------ *)
(** ** The cursor after a response, and the manual retry *)

Section Defects.
Import JsString Controller.
Local Open Scope string_scope.

(** The cursor is on the first of the results still shown when the
    running search fails for good. *)
Definition cursor_then_failure_trace : list Event :=
  [ Input "a"; DebounceElapsed;
    Response 0 ["apple"; "apricot"; "banana"] 412;
    Input "ap"; DebounceElapsed; KeyDown ArrowDown;
    Failure 1 500 None; RetryNotified 2;
    Failure 2 500 None; RetryNotified 2;
    Failure 3 500 None ].

Lemma handleSearchResponse_selectedIndex (body : list string) (a : App) :
  selectedIndex (handleSearchResponse body a) = selectedIndex a.
Proof.
  unfold handleSearchResponse.
  repeat match goal with
    | |- context [if ?b then _ else _] => destruct b
    end; reflexivity.
Qed.

Lemma handleSearchError_selectedIndex (e : SearchError) (t : string)
    (w : World) :
  selectedIndex (app (handleSearchError e t w)) = selectedIndex (app w).
Proof.
  unfold handleSearchError. destruct (3 <=? _)%nat; reflexivity.
Qed.

(** The cursor is -1 or indexes a result. *)
Definition cursor_in_range (a : App) : Prop :=
  selectedIndex a = -1 \/ 0 <= selectedIndex a < len (results a).

(** Events of the user interface, as opposed to the callbacks of the
    search stream. *)
Definition is_ui_event (e : Event) : bool :=
  match e with
  | DebounceElapsed | Response _ _ _ | Failure _ _ _ | TimeoutElapsed _
  | RetryNotified _ => false
  | _ => true
  end.

Lemma navigateResults_in_range (d : Z) (a : App) :
  cursor_in_range a -> cursor_in_range (navigateResults d a).
Proof.
  unfold cursor_in_range, navigateResults, hasResults. intros H.
  destruct (0 <? len (results a))%Z eqn:Hr; simpl; [| exact H].
  apply Z.ltb_lt in Hr.
  destruct (selectedIndex a + d <? -1)%Z eqn:E1; simpl.
  - right. lia.
  - destruct (len (results a) <=? selectedIndex a + d)%Z eqn:E2; simpl.
    + left. reflexivity.
    + apply Z.ltb_ge in E1. apply Z.leb_gt in E2. lia.
Qed.

(** X24.  Every handler of the user interface keeps the cursor in
    range; the handlers that empty the list or change the query reset
    it to -1. *)
Lemma ui_events_keep_cursor_in_range (w : World) (e : Event) :
  is_ui_event e = true ->
  cursor_in_range (app w) -> cursor_in_range (app (step w e)).
Proof.
  intros He H. destruct e; try discriminate; simpl.
  - unfold onSearchInput, next.
    destruct (hasError _); destruct (_ || _); left; reflexivity.
  - unfold onFocus. destruct (blurTimeout w); exact H.
  - exact H.
  - unfold blurElapsed. destruct (existsb _ _); [left; reflexivity | exact H].
  - unfold onKeyDown, selectResult.
    destruct (negb _ && _); [exact H |].
    destruct key; simpl;
      try (apply navigateResults_in_range; exact H);
      try exact H; try (left; reflexivity).
    repeat match goal with
      | |- cursor_in_range (app (if ?b then _ else _)) => destruct b
      | |- cursor_in_range (app (match ?o with Some _ => _ | None => _ end))
          => destruct o
      end; exact H.
  - unfold retry. destruct (truthy _); exact H.
  - left. reflexivity.
  - exact H.
  - exact H.
  - left. reflexivity.
  - exact H.
  - unfold toastElapsed. destruct (toastTimers w); exact H.
Qed.

Lemma ui_events_keep_cursor_in_range_witness :
  cursor_in_range
    (app (step (run [ Input "a"; DebounceElapsed;
                      Response 0 ["apple"; "apricot"] 412 ])
            (KeyDown ArrowDown))).
Proof.
  apply ui_events_keep_cursor_in_range.
  - reflexivity.
  - left. vm_compute. reflexivity.
Defined.

(** C2.  The handlers of a response and of a failure replace the
    result list and leave the cursor where it was.  After a
    two-element response the cursor is still 2, and after a final
    failure the result list is empty and the cursor is still 0: in
    both reachable states the cursor is not below the length of the
    result list. *)
Theorem cursor_not_reset_by_response :
  (let w := run stale_cursor_trace in
   selectedIndex (app w) = 2 /\ len (results (app w)) = 2) /\
  (let w := run cursor_then_failure_trace in
   selectedIndex (app w) = 0 /\ results (app w) = []).
Proof. split; vm_compute; split; reflexivity. Qed.

(** Three attempts of the query typed by the user fail. *)
Definition failed_search_trace : list Event :=
  [ Input "a"; DebounceElapsed;
    Failure 0 500 None; RetryNotified 1;
    Failure 1 500 None; RetryNotified 1;
    Failure 2 500 None ].

(** [retry()] with a non-blank query text clears the error flag and
    message and hands the text to the debounced stream. *)
Lemma retry_clears_error (w : World) :
  blank (searchTerm (app w)) = false ->
  hasError (app (retry w)) = false /\
  errorMessage (app (retry w)) = EmptyString /\
  debounced (retry w) = Some (searchTerm (app w)) /\
  sent (retry w) = sent w.
Proof.
  intros Hb. unfold retry, blank in *.
  destruct (truthy (trim (searchTerm (app w)))); [| discriminate].
  repeat split.
Qed.

(** When that text is the value that settled last, the stream drops
    it: no request goes out. *)
Lemma retry_dropped_when_unchanged (w : World) :
  blank (searchTerm (app w)) = false ->
  distinctKey w = Some (searchTerm (app w)) ->
  sent (settle (retry w)) = sent w /\
  inner (settle (retry w)) = inner w.
Proof.
  intros Hb Hk. unfold retry, blank in *.
  destruct (truthy (trim (searchTerm (app w)))); [| discriminate].
  unfold settle, next. simpl. rewrite Hk. rewrite String.eqb_refl.
  split; reflexivity.
Qed.

(** C5.  After a search that failed for good, [retry()] clears the
    error flag and the message and hands the query to the debounced
    stream; when the debounce interval has passed, the query equals
    the previously settled value and is dropped, so the three requests
    of the failed search remain the only ones ever issued and no
    pipeline is running. *)
Theorem retry_after_failure_sends_nothing :
  let w := run failed_search_trace in
  let w1 := step w RetryClicked in
  let w2 := step w1 DebounceElapsed in
  hasError (app w) = true /\
  searchTerm (app w) = "a" /\
  hasError (app w1) = false /\
  errorMessage (app w1) = EmptyString /\
  debounced w1 = Some "a" /\
  sent w2 = sent w /\
  List.length (sent w2) = 3%nat /\
  inner w2 = None.
Proof. vm_compute. repeat split; reflexivity. Qed.

End Defects.

(* ------------------------------------------------------------------ *)
(** ** Consistency of the component's flags in reachable states *)

Section Consistency.
Import JsString Controller.

(** Whether [switchMap] has an active inner subscription. *)
Definition running (w : World) : bool :=
  match inner w with
  | Some _ => true
  | None => false
  end.

Record Consistent (w : World) : Prop := mkConsistent {
  cons_loading : isLoading (app w) = running w;
  cons_error :
    hasError (app w) = true ->
    results (app w) = [] /\
    truthy (errorMessage (app w)) = true /\
    (1 <= errorCount (app w))%nat;
  cons_toast :
    showErrorToast (app w) = true ->
    (3 <= errorCount (app w))%nat /\ toastMessage (app w) = msg_toast;
  cons_count : requestCount (app w) = pipes w;
  cons_cursor : -1 <= selectedIndex (app w);
  cons_selected :
    forall v, selectedValue (app w) = Some v ->
              hd_error (emitted w) = Some v
}.

Lemma classify_truthy (e : SearchError) : truthy (classify e) = true.
Proof.
  destruct e as [| status payload]; [reflexivity |].
  unfold classify.
  destruct (status =? 0); [reflexivity |].
  destruct (status =? 500); [reflexivity |].
  destruct (status =? 404); [reflexivity |].
  destruct payload as [m |]; [| reflexivity].
  destruct (truthy m) eqn:Hm; [exact Hm | reflexivity].
Qed.

Lemma navigateResults_lower_bound (d : Z) (a : App) :
  -1 <= selectedIndex a -> -1 <= selectedIndex (navigateResults d a).
Proof.
  unfold navigateResults, hasResults. intros H.
  destruct (0 <? len (results a)) eqn:Hr; simpl; [| exact H].
  apply Z.ltb_lt in Hr.
  destruct (selectedIndex a + d <? -1) eqn:E1; simpl; [lia |].
  destruct (len (results a) <=? selectedIndex a + d) eqn:E2; simpl; [lia |].
  apply Z.ltb_ge in E1. exact E1.
Qed.

Lemma navigateResults_other_fields (d : Z) (a : App) :
  let a' := navigateResults d a in
  isLoading a' = isLoading a /\ hasError a' = hasError a /\
  results a' = results a /\ errorMessage a' = errorMessage a /\
  errorCount a' = errorCount a /\ showErrorToast a' = showErrorToast a /\
  toastMessage a' = toastMessage a /\ requestCount a' = requestCount a /\
  selectedValue a' = selectedValue a.
Proof.
  cbv zeta. unfold navigateResults.
  repeat match goal with
    | |- context [if ?b then _ else _] => destruct b
    end; repeat split.
Qed.

Lemma Consistent_initial : Consistent initial_world.
Proof.
  constructor; simpl; try discriminate; try reflexivity; try lia.
Qed.

(** One proof step for the cases of the preservation lemma: split the
    tests of the handler, then read each field off the old state. *)
Ltac split_tests :=
  repeat match goal with
    | |- context [if ?b then _ else _] =>
        let E := fresh "E" in destruct b eqn:E
    | |- context [match ?o with Some _ => _ | None => _ end] =>
        let E := fresh "E" in destruct o eqn:E
    end.

Ltac field_by H1 H2 H3 H4 H5 H6 :=
  constructor; simpl;
  [ try exact H1 | try exact H2 | try exact H3 | try exact H4
  | try exact H5 | try exact H6 ].

Lemma Consistent_navigate (d : Z) (w : World) :
  Consistent w -> Consistent (on_app (navigateResults d) w).
Proof.
  intros [H1 H2 H3 H4 H5 H6].
  destruct (navigateResults_other_fields d (app w))
    as [N1 [N2 [N3 [N4 [N5 [N6 [N7 [N8 N9]]]]]]]].
  constructor; simpl.
  - rewrite N1. exact H1.
  - rewrite N2, N3, N4, N5. exact H2.
  - rewrite N6, N5, N7. exact H3.
  - rewrite N8. exact H4.
  - apply navigateResults_lower_bound. exact H5.
  - rewrite N9. exact H6.
Qed.

Lemma Consistent_selectResult (r : string) (w : World) :
  Consistent w -> Consistent (selectResult r w).
Proof.
  intros [H1 H2 H3 H4 H5 H6]. field_by H1 H2 H3 H4 H5 H6.
  intros v Hv. exact Hv.
Qed.

Lemma Consistent_onKeyDown (k : Key) (w : World) :
  Consistent w -> Consistent (onKeyDown k w).
Proof.
  intros H. unfold onKeyDown.
  destruct (negb (showDropdown (app w)) && _).
  - destruct H as [H1 H2 H3 H4 H5 H6]. field_by H1 H2 H3 H4 H5 H6.
  - destruct k.
    + apply Consistent_navigate; exact H.
    + apply Consistent_navigate; exact H.
    + split_tests; try exact H; apply Consistent_selectResult; exact H.
    + destruct H as [H1 H2 H3 H4 H5 H6]. field_by H1 H2 H3 H4 H5 H6. lia.
    + destruct H as [H1 H2 H3 H4 H5 H6]. field_by H1 H2 H3 H4 H5 H6.
    + exact H.
Qed.

Lemma Consistent_response (body : list string) (w : World) :
  running w = false ->
  Consistent (on_app (set_isLoading false) w) ->
  Consistent (on_app (handleSearchResponse body) w).
Proof.
  intros Hr [H1 H2 H3 H4 H5 H6]. simpl in *.
  constructor; unfold handleSearchResponse; simpl;
    (destruct (0 <? len body);
     [| destruct (truthy (trim (searchTerm (app w))))]); simpl;
    try assumption; try discriminate; try (symmetry; exact Hr).
  intros He. destruct (H2 He) as [_ [Hm Hc]]. auto.
Qed.

Lemma Consistent_stopped (w : World) :
  Consistent w -> Consistent (on_app (set_isLoading false) (set_inner None w)).
Proof.
  intros [H1 H2 H3 H4 H5 H6]. constructor; simpl; auto.
Qed.

Lemma Consistent_switch (v : string) (w : World) :
  Consistent w ->
  Consistent (switchTo v
                (on_app (track v)
                   (set_distinctKey (Some v)
                      (log_settled v (set_debounced None w))))).
Proof.
  intros H. unfold switchTo, track.
  destruct (truthy (trim v)) eqn:Hv; simpl.
  - destruct H as [H1 H2 H3 H4 H5 H6].
    constructor; simpl; auto; try discriminate;
      try (rewrite H4; reflexivity).
  - apply (Consistent_response []); [reflexivity |].
    destruct H as [H1 H2 H3 H4 H5 H6]. constructor; simpl; auto.
Qed.

Lemma Consistent_settle (w : World) : Consistent w -> Consistent (settle w).
Proof.
  intros H. unfold settle.
  destruct (debounced w) as [v |]; [| exact H]. cbv zeta.
  change (distinctKey (log_settled v (set_debounced None w)))
    with (distinctKey w).
  destruct (distinctKey w) as [k |].
  - destruct (String.eqb k v).
    + destruct H as [H1 H2 H3 H4 H5 H6]. constructor; simpl; auto.
    + apply Consistent_switch. exact H.
  - apply Consistent_switch. exact H.
Qed.

(** The assignments of [handleSearchError], field by field. *)
Lemma handleSearchError_fields (e : SearchError) (t : string) (w : World) :
  let w' := handleSearchError e t w in
  inner w' = inner w /\ pipes w' = pipes w /\ emitted w' = emitted w /\
  sent w' = sent w /\
  isLoading (app w') = false /\ hasError (app w') = true /\
  results (app w') = [] /\ errorMessage (app w') = classify e /\
  errorCount (app w') = S (errorCount (app w)) /\
  requestCount (app w') = requestCount (app w) /\
  selectedIndex (app w') = selectedIndex (app w) /\
  selectedValue (app w') = selectedValue (app w) /\
  ((2 <= errorCount (app w))%nat ->
     showErrorToast (app w') = true /\ toastMessage (app w') = msg_toast) /\
  ((errorCount (app w) < 2)%nat ->
     showErrorToast (app w') = showErrorToast (app w) /\
     toastMessage (app w') = toastMessage (app w)).
Proof.
  cbv zeta. unfold handleSearchError, showToast.
  destruct (3 <=? errorCount (app (on_app _ w)))%nat eqn:E;
    cbn [app on_app errorCount set_errorMessage set_results set_errorCount
         set_hasError set_isLoading] in E;
    [apply Nat.leb_le in E | apply Nat.leb_gt in E];
    repeat split; try reflexivity; intros; try lia.
Qed.

Lemma Consistent_handleSearchError (e : SearchError) (t : string)
    (w : World) :
  Consistent w ->
  Consistent (on_app (set_isLoading false)
                (handleSearchError e t (set_inner None w))).
Proof.
  intros [H1 H2 H3 H4 H5 H6].
  destruct (handleSearchError_fields e t (set_inner None w))
    as [F1 [F2 [F3 [_ [F4 [F5 [F6 [F7 [F8 [F9 [F10 [F11 [F12 F13]]]]]]]]]]]]].
  simpl in F1, F2, F3, F8, F9, F10, F11, F12, F13.
  constructor; simpl.
  - unfold running. simpl. rewrite F1. reflexivity.
  - intros _. rewrite F6, F7, F8, classify_truthy. repeat split. lia.
  - intros Ht. rewrite F8.
    destruct (Nat.le_gt_cases 2 (errorCount (app w))) as [Hge | Hlt].
    + split; [lia | exact (proj2 (F12 Hge))].
    + destruct (F13 Hlt) as [Ea Eb]. rewrite Ea in Ht. rewrite Eb.
      destruct (H3 Ht) as [Hc Hm]. split; [lia | exact Hm].
  - rewrite F9, F2. exact H4.
  - rewrite F10. exact H5.
  - intros v. rewrite F11, F3. apply H6.
Qed.

Lemma Consistent_deliver_failure (r : nat) (e : SearchError) (w : World) :
  Consistent w -> Consistent (deliver r (attemptFailed e) w).
Proof.
  intros H. unfold deliver.
  destruct (inner w) as [i |] eqn:Hi; [| exact H].
  destruct (phase i) as [r' |]; [| exact H].
  destruct (r =? r')%nat; [| exact H].
  unfold attemptFailed. destruct (retried i <? MAX_RETRIES)%nat.
  - destruct H as [H1 H2 H3 H4 H5 H6]. constructor; simpl; auto.
    rewrite H1. unfold running. rewrite Hi. reflexivity.
  - apply Consistent_response.
    + unfold handleSearchError, showToast.
      destruct (3 <=? _)%nat; reflexivity.
    + apply Consistent_handleSearchError. exact H.
Qed.

Lemma Consistent_deliver_success (r : nat) (body : list string) (t : Z)
    (w : World) :
  Consistent w -> Consistent (deliver r (fun _ => attemptSucceeded body t) w).
Proof.
  intros H. unfold deliver.
  destruct (inner w) as [i |] eqn:Hi; [| exact H].
  destruct (phase i) as [r' |]; [| exact H].
  destruct (r =? r')%nat; [| exact H].
  unfold attemptSucceeded.
  apply (Consistent_response body
           (on_app (set_latency (Some t)) (set_inner None w)));
    [reflexivity |].
  destruct H as [H1 H2 H3 H4 H5 H6]. constructor; simpl; auto.
Qed.

Lemma Consistent_step (w : World) (e : Event) :
  Consistent w -> Consistent (step w e).
Proof.
  intros H. destruct e; simpl.
  - destruct H as [H1 H2 H3 H4 H5 H6]. unfold onSearchInput, next.
    destruct w as [a dv dk inn nr pp sn st em bt bts nt tt].
    destruct a as [q rs sv si il he hs sd et msg tm ec rc la].
    simpl in *.
    destruct he; simpl;
      destruct (truthy value || negb hs);
      constructor; simpl; auto; try discriminate; try lia.
  - unfold onFocus. destruct H as [H1 H2 H3 H4 H5 H6].
    destruct (blurTimeout w); constructor; simpl; auto.
  - destruct H as [H1 H2 H3 H4 H5 H6]. constructor; simpl; auto.
  - unfold blurElapsed. destruct (existsb _ _); [| exact H].
    destruct H as [H1 H2 H3 H4 H5 H6]. constructor; simpl; auto; lia.
  - apply Consistent_onKeyDown. exact H.
  - apply Consistent_settle. exact H.
  - apply Consistent_deliver_success. exact H.
  - apply Consistent_deliver_failure. exact H.
  - apply Consistent_deliver_failure. exact H.
  - unfold retryNow. destruct (inner w) as [i |] eqn:Hi; [| exact H].
    destruct (phase i); [exact H |].
    destruct (pipe =? ipipe i)%nat; [| exact H].
    destruct H as [H1 H2 H3 H4 H5 H6]. constructor; simpl; auto.
    rewrite H1. unfold running. rewrite Hi. reflexivity.
  - unfold retry. destruct (truthy _); [| exact H].
    destruct H as [H1 H2 H3 H4 H5 H6].
    constructor; simpl; auto; discriminate.
  - destruct H as [H1 H2 H3 H4 H5 H6].
    constructor; simpl; auto; try discriminate; try lia.
  - apply Consistent_selectResult. exact H.
  - destruct H as [H1 H2 H3 H4 H5 H6]. constructor; simpl; auto.
  - destruct H as [H1 H2 H3 H4 H5 H6].
    constructor; simpl; auto; try discriminate; try lia.
  - destruct H as [H1 H2 H3 H4 H5 H6].
    constructor; simpl; auto; discriminate.
  - unfold toastElapsed. destruct (toastTimers w); [exact H |].
    destruct H as [H1 H2 H3 H4 H5 H6].
    constructor; simpl; auto; discriminate.
Qed.

Lemma Consistent_fold (events : list Event) :
  forall w, Consistent w -> Consistent (fold_left step events w).
Proof.
  induction events as [| e events IH]; simpl; intros w H; [exact H |].
  apply IH. apply Consistent_step. exact H.
Qed.

Lemma Consistent_reachable (w : World) : reachable w -> Consistent w.
Proof.
  intros [events ->]. apply Consistent_fold. exact Consistent_initial.
Qed.

(** X1.  In every reachable state the loading flag is set exactly
    while a request pipeline is running (waiting for a response or for
    the retry notifier). *)
Theorem loading_iff_pipeline_running (events : list Event) :
  let w := run events in
  isLoading (app w) = true <-> exists i, inner w = Some i.
Proof.
  cbv zeta.
  pose proof (cons_loading _ (Consistent_reachable _
                (ex_intro _ events eq_refl))) as H.
  unfold running in H. rewrite H.
  destruct (inner (run events)) as [i |]; split.
  - intros _. exists i. reflexivity.
  - reflexivity.
  - discriminate.
  - intros [i Hi]. discriminate.
Qed.

(** X2.  In every reachable state with the error flag set: the result
    list is empty, there is a non-empty message to show, at least one
    failure was counted, and no pipeline is running. *)
Theorem error_state_is_complete (events : list Event) :
  let w := run events in
  hasError (app w) = true ->
  results (app w) = [] /\
  truthy (errorMessage (app w)) = true /\
  (1 <= errorCount (app w))%nat /\
  inner w = None /\
  isLoading (app w) = false.
Proof.
  cbv zeta. intros He.
  assert (Hr : reachable (run events)) by (exists events; reflexivity).
  pose proof (Consistent_reachable _ Hr) as HC.
  pose proof (Inv_reachable _ Hr) as HI.
  destruct (cons_error _ HC He) as [H1 [H2 H3]].
  assert (Hn : inner (run events) = None).
  { destruct (inner (run events)) as [i |] eqn:Hi; [| reflexivity].
    destruct (inv_inner _ HI i Hi) as [_ [_ [_ [Hf _]]]].
    rewrite Hf in He. discriminate. }
  repeat split; auto.
  rewrite (cons_loading _ HC). unfold running. rewrite Hn. reflexivity.
Qed.

Lemma error_state_is_complete_witness :
  results (app (run failed_search_trace)) = [] /\
  truthy (errorMessage (app (run failed_search_trace))) = true.
Proof.
  destruct (error_state_is_complete failed_search_trace
              ltac:(vm_compute; reflexivity)) as [H1 [H2 _]].
  split; assumption.
Defined.

(** Three searches in a row, each failing for good. *)
Definition three_failures_trace : list Event :=
  [ Input "a"; DebounceElapsed;
    Failure 0 500 None; RetryNotified 1;
    Failure 1 500 None; RetryNotified 1; Failure 2 500 None;
    Input "b"; DebounceElapsed;
    Failure 3 500 None; RetryNotified 2;
    Failure 4 500 None; RetryNotified 2; Failure 5 500 None;
    Input "c"; DebounceElapsed;
    Failure 6 500 None; RetryNotified 3;
    Failure 7 500 None; RetryNotified 3; Failure 8 500 None ]%string.

(** X3.  In every reachable state in which the toast is visible, at
    least three failures were counted and the toast carries the
    multiple-errors text. *)
Theorem toast_needs_three_errors (events : list Event) :
  let w := run events in
  showErrorToast (app w) = true ->
  (3 <= errorCount (app w))%nat /\ toastMessage (app w) = msg_toast.
Proof.
  cbv zeta. intros Ht.
  apply (cons_toast _ (Consistent_reachable _ (ex_intro _ events eq_refl))).
  exact Ht.
Qed.

Lemma toast_needs_three_errors_witness :
  (3 <= errorCount (app (run three_failures_trace)))%nat /\
  toastMessage (app (run three_failures_trace)) = msg_toast.
Proof.
  apply (toast_needs_three_errors three_failures_trace).
  vm_compute. reflexivity.
Defined.

(** X4.  In every reachable state the cursor is at least -1, also
    after responses that leave it above the end of the list. *)
Theorem cursor_never_below_minus_one (events : list Event) :
  -1 <= selectedIndex (app (run events)).
Proof.
  apply (cons_cursor _ (Consistent_reachable _ (ex_intro _ events eq_refl))).
Qed.

(** X5.  In every reachable state a current selection is the value
    most recently emitted on [resultSelected]: nothing sets the
    selection without emitting it, and clearing is the only way it
    goes away. *)
Theorem selection_was_emitted (events : list Event) (v : string) :
  let w := run events in
  selectedValue (app w) = Some v -> hd_error (emitted w) = Some v.
Proof.
  cbv zeta.
  apply (cons_selected _ (Consistent_reachable _
                           (ex_intro _ events eq_refl))).
Qed.

Lemma selection_was_emitted_witness :
  hd_error (emitted (run [ Input "appl"; DebounceElapsed;
                           Response 0 ["apple"%string] 412;
                           KeyDown Enter ]%string))
  = Some "apple"%string.
Proof.
  apply (selection_was_emitted
           [ Input "appl"; DebounceElapsed;
             Response 0 ["apple"%string] 412; KeyDown Enter ]%string).
  vm_compute. reflexivity.
Defined.

End Consistency.

(* ------------------------------------------------------------------ *)
(** ** How many requests a search may cost *)

Section RequestBudget.
Import JsString Controller.

(** Requests in the log that belong to pipeline [p]. *)
Definition requests_of (p : nat) (l : list Request) : list Request :=
  filter (fun rq => (rpipe rq =? p)%nat) l.

Definition attempts (p : nat) (l : list Request) : nat :=
  List.length (requests_of p l).

(** 1 while the inner subscription waits for a request, 0 while it
    waits for the retry notifier. *)
Definition in_flight (ph : Phase) : nat :=
  match ph with
  | Awaiting _ => 1
  | Backoff => 0
  end.

Record Budget (w : World) : Prop := mkBudget {
  bud_all : forall p, (attempts p (sent w) <= 3)%nat;
  bud_terms :
    forall rq1 rq2, In rq1 (sent w) -> In rq2 (sent w) ->
      rpipe rq1 = rpipe rq2 -> rterm rq1 = rterm rq2;
  bud_inner :
    forall i, inner w = Some i ->
      (retried i <= MAX_RETRIES)%nat /\
      (attempts (ipipe i) (sent w) <= retried i + in_flight (phase i))%nat /\
      (forall rq, In rq (sent w) -> rpipe rq = ipipe i ->
                  rterm rq = iterm i)
}.

Lemma attempts_cons (p : nat) (rq : Request) (l : list Request) :
  attempts p (rq :: l)
  = ((if (rpipe rq =? p)%nat then 1 else 0) + attempts p l)%nat.
Proof.
  unfold attempts, requests_of. simpl.
  destruct (rpipe rq =? p)%nat; reflexivity.
Qed.

Lemma attempts_above (w : World) (p : nat) :
  Inv w -> (pipes w < p)%nat -> attempts p (sent w) = 0%nat.
Proof.
  intros HI Hp. unfold attempts, requests_of.
  pose proof (inv_pipes w HI) as HF.
  induction (sent w) as [| rq l IH]; [reflexivity |].
  inversion HF as [| x l' Hx Hl]; subst. simpl.
  destruct (Nat.eqb_spec (rpipe rq) p) as [E | _]; [lia |].
  apply IH. assumption.
Qed.

Lemma In_above (w : World) (rq : Request) :
  Inv w -> In rq (sent w) -> (rpipe rq <= pipes w)%nat.
Proof.
  intros HI Hin.
  exact (proj1 (Forall_forall _ _) (inv_pipes w HI) rq Hin).
Qed.

Lemma Budget_initial : Budget initial_world.
Proof.
  constructor; simpl.
  - intros p. unfold attempts. simpl. lia.
  - intros rq1 rq2 [].
  - intros i H. discriminate.
Qed.

(** A state with the same log of requests and the same inner
    subscription has the same budget. *)
Lemma Budget_same (w w' : World) :
  sent w' = sent w -> inner w' = inner w -> Budget w -> Budget w'.
Proof.
  intros Hs Hi [H1 H2 H3]. constructor; rewrite ?Hs, ?Hi; assumption.
Qed.

Ltac keep_budget :=
  match goal with
  | H : Budget ?w |- Budget _ =>
      apply (Budget_same w); [reflexivity | reflexivity | exact H]
  end.

Lemma Budget_stop (w : World) : Budget w -> Budget (set_inner None w).
Proof.
  intros [H1 H2 H3]. constructor; simpl; auto. intros i H. discriminate.
Qed.

Lemma Budget_switch (v : string) (w : World) :
  Inv w -> Budget w ->
  Budget (switchTo v
            (on_app (track v)
               (set_distinctKey (Some v)
                  (log_settled v (set_debounced None w))))).
Proof.
  intros HI [H1 H2 H3]. unfold switchTo, track.
  destruct (truthy (trim v)) eqn:Hv; simpl.
  - assert (H0 : attempts (S (pipes w)) (sent w) = 0%nat)
      by (apply attempts_above; [exact HI | lia]).
    constructor; simpl.
    + intros p. rewrite attempts_cons. cbn [rpipe].
      destruct (Nat.eqb_spec (S (pipes w)) p) as [<- | _].
      * rewrite H0. lia.
      * apply H1.
    + intros rq1 rq2 [<- | I1] [<- | I2] E; simpl in *; auto.
      * pose proof (In_above w rq2 HI I2). lia.
      * pose proof (In_above w rq1 HI I1). lia.
    + intros i Hi. injection Hi as <-. simpl. split; [unfold MAX_RETRIES; lia |].
      split.
      * rewrite attempts_cons. cbn [rpipe]. rewrite Nat.eqb_refl, H0. lia.
      * intros rq [<- | I] E; [reflexivity |].
        pose proof (In_above w rq HI I). lia.
  - constructor; simpl; auto. intros i Hi. discriminate.
Qed.

Lemma Budget_settle (w : World) : Inv w -> Budget w -> Budget (settle w).
Proof.
  intros HI H. unfold settle.
  destruct (debounced w) as [v |]; [| keep_budget]. cbv zeta.
  change (distinctKey (log_settled v (set_debounced None w)))
    with (distinctKey w).
  destruct (distinctKey w) as [k |].
  - destruct (String.eqb k v); [keep_budget |].
    apply Budget_switch; assumption.
  - apply Budget_switch; assumption.
Qed.

Lemma Budget_deliver_failure (r : nat) (e : SearchError) (w : World) :
  Budget w -> Budget (deliver r (attemptFailed e) w).
Proof.
  intros H. unfold deliver.
  destruct (inner w) as [i |] eqn:Hi; [| keep_budget].
  destruct (phase i) as [r' |] eqn:Hp; [| keep_budget].
  destruct (r =? r')%nat; [| keep_budget].
  unfold attemptFailed.
  destruct (retried i <? MAX_RETRIES)%nat eqn:Hr.
  - destruct H as [H1 H2 H3]. destruct (H3 i Hi) as [Ha [Hb Hc]].
    rewrite Hp in Hb. simpl in Hb. apply Nat.ltb_lt in Hr.
    unfold MAX_RETRIES in Hr.
    constructor; simpl.
    + intros p. rewrite attempts_cons. cbn [rpipe].
      destruct (Nat.eqb_spec (ipipe i) p) as [<- | _]; [lia | apply H1].
    + intros rq1 rq2 [<- | I1] [<- | I2] E; simpl in *; auto;
        solve [apply Hc; auto | symmetry; apply Hc; auto].
    + intros j Hj. injection Hj as <-. simpl.
      split; [unfold MAX_RETRIES; lia |]. split.
      * rewrite attempts_cons. cbn [rpipe]. rewrite Nat.eqb_refl. lia.
      * intros rq [<- | I] E; [reflexivity | apply Hc; auto].
  - unfold handleSearchError, showToast.
    destruct H as [H1 H2 H3].
    destruct (3 <=? _)%nat; constructor; simpl; auto;
      intros j Hj; discriminate.
Qed.

Lemma Budget_step (w : World) (e : Event) :
  Inv w -> Budget w -> Budget (step w e).
Proof.
  intros HI H. destruct e; simpl.
  - unfold onSearchInput, next.
    destruct (hasError _); destruct (_ || _); keep_budget.
  - unfold onFocus. destruct (blurTimeout w); keep_budget.
  - keep_budget.
  - unfold blurElapsed. destruct (existsb _ _); keep_budget.
  - unfold onKeyDown, selectResult.
    destruct (negb _ && _); [keep_budget |].
    destruct key;
      repeat match goal with
        | |- Budget (if ?b then _ else _) => destruct b
        | |- Budget (match ?o with Some _ => _ | None => _ end) =>
            destruct o
        end; keep_budget.
  - apply Budget_settle; assumption.
  - unfold deliver. destruct (inner w) as [i |] eqn:Hi; [| keep_budget].
    destruct (phase i) as [r' |]; [| keep_budget].
    destruct (request =? r')%nat; [| keep_budget].
    unfold attemptSucceeded. destruct H as [H1 H2 H3].
    constructor; simpl; auto. intros j Hj. discriminate.
  - apply Budget_deliver_failure; assumption.
  - apply Budget_deliver_failure; assumption.
  - unfold retryNow. destruct (inner w) as [i |] eqn:Hi; [| keep_budget].
    destruct (phase i) eqn:Hp; [keep_budget |].
    destruct (pipe =? ipipe i)%nat; [| keep_budget].
    destruct H as [H1 H2 H3]. destruct (H3 i Hi) as [Ha [Hb Hc]].
    rewrite Hp in Hb. simpl in Hb. unfold MAX_RETRIES in Ha.
    constructor; simpl.
    + intros p. rewrite attempts_cons. cbn [rpipe].
      destruct (Nat.eqb_spec (ipipe i) p) as [<- | _]; [lia | apply H1].
    + intros rq1 rq2 [<- | I1] [<- | I2] E; simpl in *; auto;
        solve [apply Hc; auto | symmetry; apply Hc; auto].
    + intros j Hj. injection Hj as <-. simpl.
      split; [unfold MAX_RETRIES; lia |]. split.
      * rewrite attempts_cons. cbn [rpipe]. rewrite Nat.eqb_refl. lia.
      * intros rq [<- | I] E; [reflexivity | apply Hc; auto].
  - unfold retry. destruct (truthy _); keep_budget.
  - keep_budget.
  - keep_budget.
  - keep_budget.
  - keep_budget.
  - keep_budget.
  - unfold toastElapsed. destruct (toastTimers w); keep_budget.
Qed.

Lemma Budget_fold (events : list Event) :
  forall w, Inv w -> Budget w -> Budget (fold_left step events w).
Proof.
  induction events as [| e events IH]; simpl; intros w HI H; [exact H |].
  apply IH; [apply Inv_step | apply Budget_step]; assumption.
Qed.

(** X6.  However the events fall, a pipeline sends at most three
    requests (the first attempt and two retries), all of them for the
    same query, and every pipeline that sent a request was counted in
    [requestCount]. *)
Theorem at_most_three_attempts (events : list Event) :
  let w := run events in
  (forall p, (attempts p (sent w) <= 3)%nat) /\
  (forall rq1 rq2, In rq1 (sent w) -> In rq2 (sent w) ->
     rpipe rq1 = rpipe rq2 -> rterm rq1 = rterm rq2) /\
  (forall rq, In rq (sent w) -> (rpipe rq <= requestCount (app w))%nat).
Proof.
  cbv zeta.
  assert (Hr : reachable (run events)) by (exists events; reflexivity).
  pose proof (Inv_reachable _ Hr) as HI.
  pose proof (Budget_fold events _ Inv_initial Budget_initial) as HB.
  fold (run events) in HB.
  split; [exact (bud_all _ HB) |]. split; [exact (bud_terms _ HB) |].
  intros rq Hin.
  rewrite (cons_count _ (Consistent_reachable _ Hr)).
  apply In_above; assumption.
Qed.

End RequestBudget.

(* ------------------------------------------------------------------ *)
(** ** The outer pipe: debounce, dedup, dispatch *)

Section OuterPipe.
Import JsString Controller.

(** A burst of input events, oldest first. *)
Definition type_all (values : list string) (w : World) : World :=
  fold_left (fun w v => onSearchInput v w) values w.

Lemma onSearchInput_stream (v : string) (w : World) :
  let w' := onSearchInput v w in
  debounced w' = Some v /\ sent w' = sent w /\ settled w' = settled w /\
  distinctKey w' = distinctKey w /\ inner w' = inner w /\
  searchTerm (app w') = v.
Proof.
  cbv zeta. unfold onSearchInput, next.
  destruct w as [a dv dk inn nr pp sn st em bt bts nt tt].
  destruct a as [q rs sv si il he hs sd et msg tm ec rc la]. simpl.
  destruct he; simpl; destruct (truthy v || negb hs); repeat split.
Qed.

Lemma type_all_stream (values : list string) :
  forall w v,
    let w' := type_all (values ++ [v]) w in
    debounced w' = Some v /\ sent w' = sent w /\ settled w' = settled w /\
    distinctKey w' = distinctKey w /\ inner w' = inner w /\
    searchTerm (app w') = v.
Proof.
  unfold type_all.
  induction values as [| x values IH]; intros w v; simpl.
  - apply onSearchInput_stream.
  - destruct (IH (onSearchInput x w) v) as [H1 [H2 [H3 [H4 [H5 H6]]]]].
    destruct (onSearchInput_stream x w) as [_ [G2 [G3 [G4 [G5 _]]]]].
    cbv zeta in *. repeat split; congruence.
Qed.

Lemma settle_sent (w : World) (v : string) :
  debounced w = Some v ->
  settled (settle w) = v :: settled w /\
  (sent (settle w) = sent w \/
   sent (settle w) = mkRequest (nextRequest w) v (S (pipes w)) :: sent w).
Proof.
  intros Hd. unfold settle. rewrite Hd. cbv zeta.
  change (distinctKey (log_settled v (set_debounced None w)))
    with (distinctKey w).
  assert (Hs :
    let w1 := switchTo v (on_app (track v) (set_distinctKey (Some v)
                (log_settled v (set_debounced None w)))) in
    settled w1 = v :: settled w /\
    (sent w1 = sent w \/
     sent w1 = mkRequest (nextRequest w) v (S (pipes w)) :: sent w)).
  { cbv zeta. unfold switchTo, track.
    destruct (truthy (trim v)); simpl; auto. }
  destruct (distinctKey w) as [k |]; [| exact Hs].
  destruct (String.eqb k v); [| exact Hs].
  simpl. auto.
Qed.

(** X7.  Of a burst of input events that arrive before the debounce
    timer fires, only the last value settles: the earlier ones leave
    no trace in the stream, and when the timer fires at most one
    request goes out, for the last value. *)
Theorem debounce_keeps_last (values : list string) (v : string)
    (w : World) :
  let typed := type_all (values ++ [v]) w in
  let w' := step typed DebounceElapsed in
  sent typed = sent w /\
  settled w' = v :: settled w /\
  (sent w' = sent w \/
   sent w' = mkRequest (nextRequest w) v (S (pipes w)) :: sent w).
Proof.
  cbv zeta. simpl.
  destruct (type_all_stream values w v) as [H1 [H2 [H3 [H4 [H5 H6]]]]].
  cbv zeta in *.
  destruct (settle_sent _ v H1) as [S1 S2].
  split; [exact H2 |]. split.
  - rewrite S1, H3. reflexivity.
  - rewrite H2 in S2.
    assert (Hn : nextRequest (type_all (values ++ [v]) w) = nextRequest w
                 /\ pipes (type_all (values ++ [v]) w) = pipes w).
    { clear. unfold type_all. generalize (values ++ [v]). intros l.
      revert w. induction l as [| x l IH]; intros w; simpl; [auto |].
      destruct (IH (onSearchInput x w)) as [A B]. rewrite A, B.
      unfold onSearchInput, next.
      destruct (hasError _); destruct (_ || _); split; reflexivity. }
    destruct Hn as [Hn Hp]. rewrite Hn, Hp in S2. exact S2.
Qed.

(** X8.  In a reachable state, a value that settles and equals the
    value that settled before it is dropped: no request is issued, the
    running pipeline (if any) goes on, and no field of the component
    changes. *)
Theorem repeated_query_is_dropped (events : list Event) (v : string) :
  let w := run events in
  debounced w = Some v ->
  hd_error (settled w) = Some v ->
  let w' := step w DebounceElapsed in
  sent w' = sent w /\ inner w' = inner w /\ app w' = app w.
Proof.
  cbv zeta. intros Hd Hs. simpl. unfold settle. rewrite Hd. cbv zeta.
  change (distinctKey (log_settled v (set_debounced None (run events))))
    with (distinctKey (run events)).
  rewrite (inv_key _ (Inv_reachable _ (ex_intro _ events eq_refl))), Hs.
  rewrite String.eqb_refl. repeat split.
Qed.

Lemma repeated_query_is_dropped_witness :
  sent (step (run [ Input "a"; DebounceElapsed; Input "ab"; Input "a" ]%string)
          DebounceElapsed)
  = sent (run [ Input "a"; DebounceElapsed; Input "ab"; Input "a" ]%string).
Proof.
  apply (repeated_query_is_dropped
           [ Input "a"; DebounceElapsed; Input "ab"; Input "a" ]%string
           "a"%string).
  - vm_compute. reflexivity.
  - vm_compute. reflexivity.
Defined.

(** X9.  A non-blank value that settles and differs from the value
    settled before starts exactly one request, for that value, as the
    first attempt of a new pipeline; the loading flag is set, the error
    flag cleared and the request counter incremented; the message, the
    results and the cursor are left alone. *)
Theorem new_query_is_dispatched (w : World) (v : string) :
  debounced w = Some v ->
  blank v = false ->
  distinctKey w <> Some v ->
  let w' := step w DebounceElapsed in
  sent w' = mkRequest (nextRequest w) v (S (pipes w)) :: sent w /\
  inner w' = Some (mkInner v (S (pipes w)) 0 (Awaiting (nextRequest w))) /\
  isLoading (app w') = true /\
  hasError (app w') = false /\
  requestCount (app w') = S (requestCount (app w)) /\
  errorMessage (app w') = errorMessage (app w) /\
  results (app w') = results (app w) /\
  selectedIndex (app w') = selectedIndex (app w).
Proof.
  intros Hd Hb Hk. simpl. unfold settle. rewrite Hd. cbv zeta.
  change (distinctKey (log_settled v (set_debounced None w)))
    with (distinctKey w).
  assert (Ht : truthy (trim v) = true).
  { unfold blank in Hb. destruct (truthy (trim v)); [auto | discriminate]. }
  assert (Hs :
    let w1 := switchTo v (on_app (track v) (set_distinctKey (Some v)
                (log_settled v (set_debounced None w)))) in
    sent w1 = mkRequest (nextRequest w) v (S (pipes w)) :: sent w /\
    inner w1 = Some (mkInner v (S (pipes w)) 0 (Awaiting (nextRequest w))) /\
    isLoading (app w1) = true /\ hasError (app w1) = false /\
    requestCount (app w1) = S (requestCount (app w)) /\
    errorMessage (app w1) = errorMessage (app w) /\
    results (app w1) = results (app w) /\
    selectedIndex (app w1) = selectedIndex (app w)).
  { cbv zeta. unfold switchTo, track. rewrite Ht. simpl. repeat split. }
  destruct (distinctKey w) as [k |]; [| exact Hs].
  destruct (String.eqb_spec k v) as [-> | _]; [congruence | exact Hs].
Qed.

Lemma new_query_is_dispatched_witness :
  sent (step (run [ Input "kiwi"%string ]) DebounceElapsed)
  = [ mkRequest 0 "kiwi" 1 ].
Proof.
  apply (new_query_is_dispatched (run [ Input "kiwi"%string ]) "kiwi"%string).
  - vm_compute. reflexivity.
  - vm_compute. reflexivity.
  - vm_compute. discriminate.
Defined.

End OuterPipe.

(* ------------------------------------------------------------------ *)
(** ** Failures: retries, the final failure, the toast, the counters *)

Section Failures.
Import JsString Controller.

(** The event by which an attempt of request [r] fails with
    [error]. *)
Definition failure_event (r : nat) (error : SearchError) : Event :=
  match error with
  | TimeoutError => TimeoutElapsed r
  | HttpErrorResponse status payload => Failure r status payload
  end.

Lemma step_failure_event (r : nat) (error : SearchError) (w : World) :
  step w (failure_event r error) = deliver r (attemptFailed error) w.
Proof. destruct error; reflexivity. Qed.

(** X10.  While retries are left, a failed or timed-out attempt is
    retried within the same callback: one new request goes out for the
    same query in the same pipeline and is the one awaited from then
    on, no field of the component changes, and no notifier is left
    pending that could send anything later. *)
Theorem failed_attempt_is_retried (w : World) (i : Inner) (r : nat)
    (error : SearchError) :
  inner w = Some i -> phase i = Awaiting r ->
  (retried i < MAX_RETRIES)%nat ->
  let w1 := step w (failure_event r error) in
  app w1 = app w /\
  sent w1 = mkRequest (nextRequest w) (iterm i) (ipipe i) :: sent w /\
  inner w1 = Some (mkInner (iterm i) (ipipe i) (S (retried i))
                     (Awaiting (nextRequest w))) /\
  awaited w1 = Some (nextRequest w) /\
  (forall p, step w1 (RetryNotified p) = w1).
Proof.
  intros Hi Hp Hr. cbv zeta. rewrite step_failure_event.
  unfold deliver. rewrite Hi, Hp, Nat.eqb_refl.
  unfold attemptFailed. apply Nat.ltb_lt in Hr. rewrite Hr.
  repeat split.
Qed.

Lemma failed_attempt_is_retried_witness :
  let w := run [ Input "a"%string; DebounceElapsed ] in
  sent (step w (failure_event 0 TimeoutError))
  = [ mkRequest 1 "a" 1; mkRequest 0 "a" 1 ].
Proof.
  intros w.
  destruct (failed_attempt_is_retried w (mkInner "a" 1 0 (Awaiting 0)) 0
              TimeoutError ltac:(vm_compute; reflexivity) eq_refl
              ltac:(vm_compute; lia))
    as [_ [H _]].
  exact H.
Defined.

(** X11.  When the last allowed attempt fails or times out, the
    pipeline ends without sending anything more: the error flag is set,
    the message is the one chosen for the cause, the result list is
    empty, the loading flag is cleared, the search counts as done, and
    the failure counter goes up by one.  The cursor, the query text
    and the selection are not touched. *)
Theorem final_failure_is_surfaced (w : World) (i : Inner) (r : nat)
    (error : SearchError) :
  inner w = Some i -> phase i = Awaiting r ->
  (MAX_RETRIES <= retried i)%nat ->
  let w' := step w (failure_event r error) in
  inner w' = None /\ sent w' = sent w /\
  hasError (app w') = true /\
  errorMessage (app w') = classify error /\
  results (app w') = [] /\
  isLoading (app w') = false /\
  hasSearched (app w') = true /\
  errorCount (app w') = S (errorCount (app w)) /\
  selectedIndex (app w') = selectedIndex (app w) /\
  searchTerm (app w') = searchTerm (app w) /\
  selectedValue (app w') = selectedValue (app w).
Proof.
  intros Hi Hp Hr. cbv zeta. rewrite step_failure_event.
  unfold deliver. rewrite Hi, Hp, Nat.eqb_refl.
  unfold attemptFailed. apply Nat.ltb_ge in Hr. rewrite Hr.
  unfold handleSearchError, showToast, handleSearchResponse.
  destruct (3 <=? _)%nat; simpl;
    destruct (truthy (trim (searchTerm (app w)))); simpl; repeat split.
Qed.

Lemma final_failure_is_surfaced_witness :
  let w := run [ Input "a"%string; DebounceElapsed;
                 Failure 0 500 None; RetryNotified 1;
                 Failure 1 500 None; RetryNotified 1 ] in
  errorMessage (app (step w (failure_event 2 TimeoutError))) = msg_timeout.
Proof.
  intros w.
  destruct (final_failure_is_surfaced w (mkInner "a" 1 2 (Awaiting 2)) 2
              TimeoutError ltac:(vm_compute; reflexivity) eq_refl
              ltac:(vm_compute; lia))
    as [_ [_ [_ [H _]]]].
  exact H.
Defined.

(** X12.  The final failure of a search shows the toast exactly when it
    is the third or a later counted failure: with two or more failures
    counted before, the toast becomes visible with the multiple-errors
    text and a dismissal timer is scheduled, also if the toast had been
    dismissed; with fewer, the toast flag and text stay as they were.
    Dismissing hides the toast at once. *)
Theorem toast_from_third_failure (w : World) (i : Inner) (r : nat)
    (error : SearchError) :
  inner w = Some i -> phase i = Awaiting r ->
  (MAX_RETRIES <= retried i)%nat ->
  let w' := step w (failure_event r error) in
  ((2 <= errorCount (app w))%nat ->
     showErrorToast (app w') = true /\
     toastMessage (app w') = msg_toast /\
     toastTimers w' = S (toastTimers w) /\
     showErrorToast (app (step w' ToastDismissed)) = false) /\
  ((errorCount (app w) < 2)%nat ->
     showErrorToast (app w') = showErrorToast (app w) /\
     toastMessage (app w') = toastMessage (app w) /\
     toastTimers w' = toastTimers w).
Proof.
  intros Hi Hp Hr. cbv zeta. rewrite step_failure_event.
  unfold deliver. rewrite Hi, Hp, Nat.eqb_refl.
  unfold attemptFailed. apply Nat.ltb_ge in Hr. rewrite Hr.
  unfold handleSearchError, showToast, handleSearchResponse.
  destruct (3 <=? _)%nat eqn:E;
    cbn [app on_app errorCount set_errorMessage set_results set_errorCount
         set_hasError set_isLoading set_inner] in E;
    [apply Nat.leb_le in E | apply Nat.leb_gt in E];
    simpl; destruct (truthy (trim (searchTerm (app w)))); simpl;
    split; intros Hc; try lia; repeat split.
Qed.

Lemma toast_from_third_failure_witness :
  let w := run (firstn 20 three_failures_trace) in
  showErrorToast (app (step w (failure_event 8 (HttpErrorResponse 500 None))))
  = true.
Proof.
  intros w.
  destruct (toast_from_third_failure w (mkInner "c" 3 2 (Awaiting 8)) 8
              (HttpErrorResponse 500 None)
              ltac:(vm_compute; reflexivity) eq_refl ltac:(vm_compute; lia))
    as [H _].
  destruct (H ltac:(vm_compute; lia)) as [H1 _]. exact H1.
Defined.

(** Events of the user interface leave the counters and the inner
    subscription alone. *)
Lemma ui_event_counters (w : World) (e : Event) :
  is_ui_event e = true ->
  errorCount (app (step w e)) = errorCount (app w) /\
  requestCount (app (step w e)) = requestCount (app w) /\
  inner (step w e) = inner w.
Proof.
  intros He. destruct e; try discriminate; simpl.
  - unfold onSearchInput, next.
    destruct (hasError _); destruct (_ || _); repeat split.
  - unfold onFocus. destruct (blurTimeout w); repeat split.
  - repeat split.
  - unfold blurElapsed. destruct (existsb _ _); repeat split.
  - unfold onKeyDown, selectResult.
    destruct (negb _ && _); [repeat split |].
    destruct key; simpl; try (repeat split; fail).
    + destruct (navigateResults_other_fields 1 (app w))
        as [_ [_ [_ [_ [N5 [_ [_ [N8 _]]]]]]]].
      repeat split; assumption.
    + destruct (navigateResults_other_fields (-1) (app w))
        as [_ [_ [_ [_ [N5 [_ [_ [N8 _]]]]]]]].
      repeat split; assumption.
    + destruct (_ && _).
      * destruct (index _ _); repeat split.
      * destruct (_ =? _); [destruct (index _ _) |]; repeat split.
  - unfold retry. destruct (truthy _); repeat split.
  - repeat split.
  - repeat split.
  - repeat split.
  - repeat split.
  - repeat split.
  - unfold toastElapsed. destruct (toastTimers w); repeat split.
Qed.

(** Both counters after one event. *)
Lemma counters_step (w : World) (e : Event) :
  (errorCount (app w) <= errorCount (app (step w e)))%nat /\
  (requestCount (app w) <= requestCount (app (step w e)))%nat /\
  ((errorCount (app w) + (if running w then 1 else 0)
    <= requestCount (app w))%nat ->
   (errorCount (app (step w e)) + (if running (step w e) then 1 else 0)
    <= requestCount (app (step w e)))%nat).
Proof.
  destruct (is_ui_event e) eqn:Hui.
  { destruct (ui_event_counters w e Hui) as [A [B C]].
    unfold running. rewrite A, B, C. repeat split; auto. }
  destruct w as [a dv dk inn nr pp sn st em bt bts nt tt].
  destruct a as [q rs sv si il he hs sd et msg tm ec rc la].
  unfold running.
  destruct e; try discriminate; simpl.
  - unfold settle; simpl. destruct dv as [v |]; simpl; [| repeat split; auto].
    unfold switchTo, track, handleSearchResponse.
    destruct dk as [k |]; simpl;
      [destruct (String.eqb k v); simpl |];
      try (destruct inn; repeat split; auto; fail);
      destruct (truthy (trim v)); simpl;
      try (destruct (truthy (trim q)); simpl);
      destruct inn; simpl; repeat split; intros; lia.
  - unfold deliver, attemptSucceeded, handleSearchResponse; simpl.
    destruct inn as [i |]; simpl; [| repeat split; auto].
    destruct (phase i) as [r' |]; simpl; [| repeat split; auto].
    destruct (request =? r')%nat; simpl; [| repeat split; auto].
    destruct (0 <? len body); simpl;
      [| destruct (truthy (trim q)); simpl]; repeat split; intros; lia.
  - unfold deliver, attemptFailed, handleSearchError, showToast,
      handleSearchResponse; simpl.
    destruct inn as [i |]; simpl; [| repeat split; auto].
    destruct (phase i) as [r' |]; simpl; [| repeat split; auto].
    destruct (request =? r')%nat; simpl; [| repeat split; auto].
    destruct (retried i <? MAX_RETRIES)%nat; simpl;
      [repeat split; auto |].
    destruct (match ec with 0%nat => false | S _ => _ end); simpl;
      destruct (truthy (trim q)); simpl; repeat split; intros; lia.
  - unfold deliver, attemptFailed, handleSearchError, showToast,
      handleSearchResponse; simpl.
    destruct inn as [i |]; simpl; [| repeat split; auto].
    destruct (phase i) as [r' |]; simpl; [| repeat split; auto].
    destruct (request =? r')%nat; simpl; [| repeat split; auto].
    destruct (retried i <? MAX_RETRIES)%nat; simpl;
      [repeat split; auto |].
    destruct (match ec with 0%nat => false | S _ => _ end); simpl;
      destruct (truthy (trim q)); simpl; repeat split; intros; lia.
  - unfold retryNow; simpl.
    destruct inn as [i |]; simpl; [| repeat split; auto].
    destruct (phase i); simpl; [repeat split; auto |].
    destruct (pipe =? ipipe i)%nat; simpl; repeat split; auto.
Qed.

Lemma counters_fold (events : list Event) :
  forall w,
    let w' := fold_left step events w in
    (errorCount (app w) <= errorCount (app w'))%nat /\
    (requestCount (app w) <= requestCount (app w'))%nat /\
    ((errorCount (app w) + (if running w then 1 else 0)
      <= requestCount (app w))%nat ->
     (errorCount (app w') + (if running w' then 1 else 0)
      <= requestCount (app w'))%nat).
Proof.
  induction events as [| e events IH]; intros w; simpl.
  - repeat split; auto.
  - destruct (IH (step w e)) as [A [B C]].
    destruct (counters_step w e) as [A' [B' C']].
    cbv zeta in *. split; [lia |]. split; [lia |].
    intros H. apply C. apply C'. exact H.
Qed.

(** X13.  Neither the failure counter nor the request counter ever
    goes down, whatever happens next (clearing the search or removing
    the selection included); and from the start on, the failures
    counted plus the search still running never exceed the searches
    counted. *)
Theorem counters_only_grow (events more : list Event) :
  let w := run events in
  let w' := run (events ++ more) in
  (errorCount (app w) <= errorCount (app w'))%nat /\
  (requestCount (app w) <= requestCount (app w'))%nat /\
  (errorCount (app w) + (if running w then 1 else 0)
   <= requestCount (app w))%nat.
Proof.
  cbv zeta. rewrite run_app.
  destruct (counters_fold more (run events)) as [A [B _]].
  split; [exact A |]. split; [exact B |].
  destruct (counters_fold events initial_world) as [_ [_ C]].
  apply C. simpl. lia.
Qed.

End Failures.

(* ------------------------------------------------------------------ *)
(** ** Handlers of the user interface in sequence *)

Section Interface.
Import JsString Controller.

Lemma navigateResults_restores_range (d : Z) (a : App) :
  results a <> [] -> cursor_in_range (navigateResults d a).
Proof.
  intros Hne. unfold cursor_in_range, navigateResults.
  rewrite (hasResults_nonempty a Hne). simpl.
  assert (Hn : 0 < len (results a)).
  { unfold len. destruct (results a); [congruence | simpl; lia]. }
  destruct (selectedIndex a + d <? -1) eqn:E1; simpl.
  - right. lia.
  - destruct (len (results a) <=? selectedIndex a + d) eqn:E2; simpl.
    + left. reflexivity.
    + apply Z.ltb_ge in E1. apply Z.leb_gt in E2. lia.
Qed.

(** X14.  On a non-empty result list one arrow key brings the cursor
    back into range from wherever it was, also from a position past
    the end left by a shorter response: ArrowUp always (it navigates
    even while the dropdown is closed), ArrowDown when the dropdown is
    open. *)
Theorem arrow_key_restores_range (w : World) :
  results (app w) <> [] ->
  cursor_in_range (app (onKeyDown ArrowUp w)) /\
  (showDropdown (app w) = true ->
   cursor_in_range (app (onKeyDown ArrowDown w))).
Proof.
  intros Hne. split.
  - unfold onKeyDown. rewrite andb_false_r. simpl.
    apply navigateResults_restores_range. exact Hne.
  - intros Hopen. unfold onKeyDown. rewrite Hopen. simpl.
    apply navigateResults_restores_range. exact Hne.
Qed.

Lemma arrow_key_restores_range_witness :
  cursor_in_range (app (onKeyDown ArrowUp (run stale_cursor_trace))).
Proof.
  apply (proj1 (arrow_key_restores_range (run stale_cursor_trace)
                  ltac:(vm_compute; discriminate))).
Defined.

Lemma filter_removes (t : nat) (l : list nat) :
  existsb (Nat.eqb t) (filter (fun t' => negb (t' =? t)%nat) l) = false.
Proof.
  induction l as [| x l IH]; simpl; [reflexivity |].
  destruct (Nat.eqb_spec x t) as [-> | Hne]; simpl; [exact IH |].
  rewrite IH. destruct (Nat.eqb_spec t x) as [-> | _]; [congruence | auto].
Qed.

(** X15.  After a blur, the timer it scheduled closes the dropdown and
    resets the cursor; a focus before that cancels it, so that its
    firing changes nothing; but the focus cancels only the timer of the
    latest blur: after two blurs and a focus the timer of the first
    blur still closes the dropdown. *)
Theorem focus_cancels_latest_blur (w : World) :
  let t := nextTimer w in
  (let w1 := blurElapsed t (onBlur w) in
   showDropdown (app w1) = false /\ selectedIndex (app w1) = -1) /\
  (let w2 := onFocus (onBlur w) in
   showDropdown (app w2) = true /\ blurElapsed t w2 = w2) /\
  (let w3 := blurElapsed t (onFocus (onBlur (onBlur w))) in
   showDropdown (app w3) = false /\ selectedIndex (app w3) = -1).
Proof.
  cbv zeta. split; [| split].
  - unfold blurElapsed, onBlur. simpl. rewrite Nat.eqb_refl. simpl.
    split; reflexivity.
  - split; [reflexivity |].
    unfold blurElapsed, onFocus, onBlur. simpl. rewrite Nat.eqb_refl. simpl.
    rewrite filter_removes. reflexivity.
  - unfold blurElapsed, onFocus, onBlur. simpl.
    rewrite Nat.eqb_refl. simpl.
    destruct (Nat.eqb_spec (nextTimer w) (S (nextTimer w))) as [E | _];
      [lia |].
    simpl. rewrite Nat.eqb_refl. simpl. split; reflexivity.
Qed.

(** X16.  Enter on a closed dropdown only opens it: nothing is
    committed and nothing emitted, even with a single result.  With a
    single result and the cursor at -1, the second Enter commits that
    result. *)
Theorem enter_opens_before_it_commits (w : World) :
  showDropdown (app w) = false ->
  let w1 := onKeyDown Enter w in
  w1 = on_app (set_showDropdown true) w /\
  emitted w1 = emitted w /\
  selectedValue (app w1) = selectedValue (app w) /\
  (forall r, results (app w) = [r] -> selectedIndex (app w) = -1 ->
             onKeyDown Enter w1 = selectResult r w1).
Proof.
  intros Hc. cbv zeta.
  assert (H1 : onKeyDown Enter w = on_app (set_showDropdown true) w).
  { unfold onKeyDown. rewrite Hc. reflexivity. }
  rewrite H1. repeat split.
  intros r Hr Hi. unfold onKeyDown. simpl. rewrite Hi, Hr. reflexivity.
Qed.

Lemma enter_opens_before_it_commits_witness :
  let w := run [ Input "appl"%string; DebounceElapsed;
                 Response 0 ["apple"%string] 412; KeyDown Tab ] in
  emitted (onKeyDown Enter w) = emitted w.
Proof.
  intros w.
  destruct (enter_opens_before_it_commits w ltac:(vm_compute; reflexivity))
    as [_ [H _]].
  exact H.
Defined.

Lemma handleSearchResponse_nonempty (body : list string) (a : App) :
  body <> [] -> results (handleSearchResponse body a) = body.
Proof.
  intros Hb. unfold handleSearchResponse, len.
  destruct body as [| b body]; [congruence | reflexivity].
Qed.

(** X17.  The clear action empties the results, the query text, the
    selection and the error flag and resets the cursor, but it does not
    reach into the stream: a running request stays awaited, and when
    its non-empty response arrives the results are filled in again. *)
Theorem clear_does_not_cancel (w : World) (r : nat) (body : list string)
    (t : Z) :
  awaited w = Some r -> body <> [] ->
  let w1 := step w ClearClicked in
  let w2 := step w1 (Response r body t) in
  results (app w1) = [] /\ searchTerm (app w1) = EmptyString /\
  selectedValue (app w1) = None /\ selectedIndex (app w1) = -1 /\
  hasError (app w1) = false /\
  awaited w1 = Some r /\ sent w1 = sent w /\ debounced w1 = debounced w /\
  results (app w2) = body.
Proof.
  intros Ha Hb. cbv zeta.
  do 5 (split; [reflexivity |]).
  split; [exact Ha |]. split; [reflexivity |]. split; [reflexivity |].
  cbn [step]. unfold deliver, awaited in *.
  change (inner (clearSearch w)) with (inner w).
  destruct (inner w) as [i |]; [| discriminate].
  destruct (phase i) as [r' |]; [| discriminate].
  injection Ha as ->. rewrite Nat.eqb_refl.
  unfold attemptSucceeded. cbn [app on_app].
  apply handleSearchResponse_nonempty. exact Hb.
Qed.

Lemma clear_does_not_cancel_witness :
  let w := run [ Input "a"%string; DebounceElapsed ] in
  results (app (step (step w ClearClicked) (Response 0 ["apple"%string] 412)))
  = ["apple"%string].
Proof.
  intros w.
  destruct (clear_does_not_cancel w 0 ["apple"%string] 412
              ltac:(vm_compute; reflexivity) ltac:(discriminate))
    as [_ [_ [_ [_ [_ [_ [_ [_ H]]]]]]]].
  exact H.
Defined.

Lemma clear_type_settle (w : World) (v : string) :
  distinctKey w = Some v ->
  let w' := settle (onSearchInput v (clearSearch w)) in
  sent w' = sent w /\ results (app w') = [] /\ inner w' = inner w.
Proof.
  destruct w as [a dv dk inn nr pp sn st em bt bts nt tt].
  destruct a as [q rs sv si il he hs sd et msg tm ec rc la].
  simpl. intros ->. unfold clearSearch, onSearchInput, next, settle. simpl.
  destruct (truthy v); simpl; rewrite String.eqb_refl; simpl;
    repeat split.
Qed.

(** X18.  The clear action does not reset the memory of
    [distinctUntilChanged]: in a reachable state, clearing and then
    typing the query that settled last sends no request when the
    debounce timer fires, and the result list stays empty. *)
Theorem same_query_after_clear_is_dropped (events : list Event)
    (v : string) :
  let w := run events in
  hd_error (settled w) = Some v ->
  let w' := run (events ++ [ ClearClicked; Input v; DebounceElapsed ]) in
  sent w' = sent w /\ results (app w') = [] /\ inner w' = inner w.
Proof.
  cbv zeta. intros Hs. rewrite run_app.
  pose proof (inv_key _ (Inv_reachable _ (ex_intro _ events eq_refl))) as Hk.
  rewrite Hs in Hk.
  exact (clear_type_settle (run events) v Hk).
Qed.

Lemma same_query_after_clear_is_dropped_witness :
  results (app (run ([ Input "a"%string; DebounceElapsed;
                       Response 0 ["apple"%string] 412 ]
                     ++ [ ClearClicked; Input "a"%string; DebounceElapsed ])))
  = [].
Proof.
  destruct (same_query_after_clear_is_dropped
              [ Input "a"%string; DebounceElapsed;
                Response 0 ["apple"%string] 412 ] "a"%string
              ltac:(vm_compute; reflexivity)) as [_ [H _]].
  exact H.
Defined.

End Interface.

(* ------------------------------------------------------------------ *)
(** ** More on highlighting *)

Section HighlightMore.
Import JsString Highlight.

(** The literal occurs somewhere in the text, case-insensitively. *)
Fixpoint occurs (lit text : list ascii) : bool :=
  matches_at lit text ||
  match text with
  | [] => false
  | _ :: rest => occurs lit rest
  end.

Definition marks (segs : list segment) : nat :=
  List.length (filter (fun s => match s with
                                | Marked _ => true
                                | Plain _ => false
                                end) segs).

Lemma render_length (segs : list segment) :
  List.length (render segs)
  = (List.length (erase segs) + 13 * marks segs)%nat.
Proof.
  unfold render, erase, marks.
  induction segs as [| s segs IH]; [reflexivity |].
  destruct s as [c | m].
  - simpl. rewrite IH. reflexivity.
  - cbn [flat_map render_segment source_segment filter List.length].
    rewrite !length_app, IH.
    change (List.length mark_open) with 6%nat.
    change (List.length mark_close) with 7%nat. lia.
Qed.

Lemma length_list_ascii (s : string) :
  List.length (list_ascii_of_string s) = String.length s.
Proof. induction s as [| c s IH]; simpl; [reflexivity | now rewrite IH]. Qed.

Lemma length_string_of_list (l : list ascii) :
  String.length (string_of_list_ascii l) = List.length l.
Proof. induction l as [| c l IH]; simpl; [reflexivity | now rewrite IH]. Qed.

Lemma scanned_marks (lit text : list ascii) (segs : list segment) :
  lit <> [] -> scanned lit text segs ->
  (occurs lit text = false -> render segs = text) /\
  (occurs lit text = true -> (1 <= marks segs)%nat).
Proof.
  intros Hlit Hs. induction Hs as [| c rest segs Hm Hs IH | m rest segs Hl Hm Hs IH].
  - split; [reflexivity |]. simpl. destruct lit; [congruence | discriminate].
  - destruct IH as [IH1 IH2]. simpl. rewrite Hm. simpl. split.
    + intros Ho. unfold render in *. simpl. rewrite (IH1 Ho). reflexivity.
    + intros Ho. unfold marks in *. simpl. auto.
  - split.
    + intros Ho. exfalso.
      assert (Hx : matches_at lit (m ++ rest) = true).
      { clear - Hm. revert m Hm.
        induction lit as [| l ls IHl]; intros m Hm; [reflexivity |].
        destruct m as [| x m]; [discriminate |]. simpl in *.
        apply andb_true_iff in Hm as [Hc Hm]. rewrite Hc. simpl. auto. }
      destruct (m ++ rest); simpl in Ho; rewrite Hx in Ho; discriminate.
    + intros _. unfold marks. simpl. lia.
Qed.

(** For a non-blank query: the output, and its length, in terms of the
    pieces of the search. *)
Lemma highlight_pieces (text term : string) :
  blank term = false ->
  let q := list_ascii_of_string term in
  let t := list_ascii_of_string text in
  highlightMatch text term
  = string_of_list_ascii (render (replaceAll q t)) /\
  String.length (highlightMatch text term)
  = (String.length text + 13 * marks (replaceAll q t))%nat /\
  (occurs q t = false -> render (replaceAll q t) = t) /\
  (occurs q t = true -> (1 <= marks (replaceAll q t))%nat).
Proof.
  intros Hb q t.
  pose proof (scan_scanned (List.length t) q t (blank_not_empty term Hb)
                (le_n _)) as Hs.
  destruct (scanned_marks q t _ (blank_not_empty term Hb) Hs) as [H1 H2].
  assert (Hh : highlightMatch text term
               = string_of_list_ascii (render (replaceAll q t))).
  { unfold highlightMatch. rewrite Hb, parse_escapeRegex. reflexivity. }
  split; [exact Hh |]. split; [| split; assumption].
  rewrite Hh, length_string_of_list, render_length.
  unfold replaceAll. rewrite (scanned_erase _ _ _ Hs).
  unfold t. rewrite length_list_ascii. reflexivity.
Qed.



(** Code units as numbers below 256. *)
Definition code_units : list nat := seq 0 256.

Definition canonical_code (n : nat) : nat :=
  canonicalize (ascii_of_nat n).



Lemma ascii_code_unit (c : ascii) :
  In (nat_of_ascii c) code_units /\ ascii_of_nat (nat_of_ascii c) = c.
Proof.
  split; [| apply ascii_nat_embedding].
  unfold code_units. apply in_seq.
  pose proof (nat_ascii_bounded c). lia.
Qed.












End HighlightMore.

(* ------------------------------------------------------------------ *)
(** ** The mock search server ([server.js]) *)

Module Server.

(** The sample dataset. *)
Definition fruits : list string :=
  [ "apple"; "apricot"; "banana"; "blueberry"; "cherry"; "grape";
    "grapefruit"; "kiwi"; "lemon"; "lime"; "mango"; "orange"; "papaya";
    "peach"; "pear"; "pineapple"; "plum"; "pomegranate"; "raspberry";
    "strawberry" ]%string.

(** [String.prototype.toLowerCase] on one code unit below 256: A-Z and
    the Latin-1 capitals 192-222 (but not the multiplication sign 215)
    move up by 32. *)
Definition lower_code (n : nat) : nat :=
  if ((65 <=? n) && (n <=? 90))%nat then (n + 32)%nat
  else if ((192 <=? n) && (n <=? 222) && negb (n =? 215))%nat
       then (n + 32)%nat
  else n.

Definition lower (c : ascii) : ascii := ascii_of_nat (lower_code (nat_of_ascii c)).

Definition toLowerCase (s : list ascii) : list ascii := map lower s.

(** [q] is the beginning of [s], code unit by code unit. *)
Fixpoint starts_with (q s : list ascii) : bool :=
  match q with
  | [] => true
  | a :: q' =>
      match s with
      | [] => false
      | b :: s' => Ascii.eqb a b && starts_with q' s'
      end
  end.

(** [s.includes(q)] *)
Fixpoint includes (s q : list ascii) : bool :=
  starts_with q s ||
  match s with
  | [] => false
  | _ :: s' => includes s' q
  end.

(** What the promise of [simulateSearch] settles to, given the outcome
    of the random draw [shouldFail]; the random latency only delays
    it. *)
Definition simulateSearch (term : string) (shouldFail : bool)
    : string + list string :=
  if shouldFail then inl "Random backend failure"%string
  else
    let q := toLowerCase (list_ascii_of_string term) in
    inr (filter (fun f => includes (list_ascii_of_string f) q) fruits).

(** The matches for [term] when the draw does not fail. *)
Definition search (term : string) : list string :=
  filter (fun f => includes (list_ascii_of_string f)
                     (toLowerCase (list_ascii_of_string term)))
    fruits.

(** [parsed.query.q] as [url.parse(req.url, true)] delivers it:
    [undefined] when the query string has no [q], a string when it has
    one, an array of strings when it has several. *)
Inductive QueryParam : Type :=
| Absent
| One (value : string)
| Many (values : list string).

(** The parts of a request the handler looks at, after [url.parse]:
    the method, the path ([None] is [null]) and the [q] parameter. *)
Record HttpRequest : Type := mkHttpRequest {
  method : string;
  pathname : option string;
  q : QueryParam
}.

(** The values of [term]: a string or an array. *)
Inductive Term : Type :=
| TermString (s : string)
| TermArray (values : list string).

(** The bodies the listener writes: none, [{ query, results }] or
    [{ error }]. *)
Inductive Body : Type :=
| NoBody
| Results (query : Term) (results : list string)
| ErrorBody (error : string).

Record Reply : Type := mkReply {
  status : Z;
  body : Body
}.

(** [parsed.query.q || ""]: [undefined] and the empty string are
    falsy, an array never is. *)
Definition term_of (r : HttpRequest) : Term :=
  match q r with
  | Absent => TermString EmptyString
  | One s => if JsString.truthy s then TermString s else TermString EmptyString
  | Many values => TermArray values
  end.

(** How the promise of [simulateSearch] ends for any [term].  The draw
    is made first and a failing draw rejects.  Otherwise
    [(term || "").toLowerCase()] runs inside the timer callback: on a
    string it gives the matches; on an array there is no such method,
    and the TypeError is thrown outside the promise, where nothing
    catches it. *)
Inductive Settled : Type :=
| Resolved (results : list string)
| Rejected (message : string)
| Uncaught.

Definition simulateSearchTerm (term : Term) (shouldFail : bool) : Settled :=
  match term with
  | TermString s =>
      match simulateSearch s shouldFail with
      | inr results => Resolved results
      | inl message => Rejected message
      end
  | TermArray _ =>
      if shouldFail then Rejected "Random backend failure" else Uncaught
  end.

(** What becomes of one request: a reply, or the end of the process
    by the uncaught exception, with no reply. *)
Inductive Outcome : Type :=
| Replied (p : Reply)
| Crashed.

Definition is_search (r : HttpRequest) : bool :=
  match pathname r with
  | Some path => String.eqb path "/api/search"
  | None => false
  end && String.eqb (method r) "GET".

(** The request listener, on a running server. *)
Definition handle (r : HttpRequest) (shouldFail : bool) : Outcome :=
  if String.eqb (method r) "OPTIONS" then Replied (mkReply 204 NoBody)
  else if is_search r
  then match simulateSearchTerm (term_of r) shouldFail with
       | Resolved results =>
           Replied (mkReply 200 (Results (term_of r) results))
       | Rejected message => Replied (mkReply 500 (ErrorBody message))
       | Uncaught => Crashed
       end
  else Replied (mkReply 404 (ErrorBody "Not found")).

(** The request the component sends for [term]:
    [http.get(API_URL + "?q=" + encodeURIComponent(term))]. *)
Definition client_request (term : string) : HttpRequest :=
  mkHttpRequest "GET" (Some "/api/search"%string) (One term).

(** What the client's error handler sees of a reply that is not a
    success. *)
Definition as_error (p : Reply) : Component.SearchError :=
  Component.HttpErrorResponse (status p)
    match body p with
    | ErrorBody e => Some e
    | _ => None
    end.

End Server.

Section ServerFacts.
Import JsString Highlight Server.

Lemma starts_with_app (q s : list ascii) :
  starts_with q s = true <-> exists post, s = q ++ post.
Proof.
  revert s. induction q as [| a q IH]; intros s; simpl.
  - split; [intros _; exists s; reflexivity | reflexivity].
  - destruct s as [| b s].
    + split; [discriminate | intros [post H]; discriminate].
    + split.
      * intros H. apply andb_true_iff in H as [Hab Hq].
        apply Ascii.eqb_eq in Hab. subst b.
        apply IH in Hq as [post ->]. exists post. reflexivity.
      * intros [post H]. injection H as -> ->.
        rewrite Ascii.eqb_refl. simpl. apply IH. exists post. reflexivity.
Qed.

(** [includes] is the substring relation. *)
Lemma includes_app (s q : list ascii) :
  includes s q = true <-> exists pre post, s = pre ++ q ++ post.
Proof.
  induction s as [| b s IH]; simpl.
  - rewrite orb_false_r, starts_with_app. split.
    + intros [post H]. exists [], post. exact H.
    + intros [pre [post H]]. destruct pre; [exists post; exact H |].
      discriminate.
  - rewrite orb_true_iff, starts_with_app, IH. split.
    + intros [[post H] | [pre [post H]]].
      * exists [], post. exact H.
      * exists (b :: pre), post. rewrite H. reflexivity.
    + intros [pre [post H]]. destruct pre as [| x pre].
      * left. exists post. exact H.
      * right. injection H as _ H. exists pre, post. exact H.
Qed.

(** X21.  Without a failure the server returns exactly the fruits of
    its dataset that contain the lower-cased query as a substring,
    each once; a query contained in another one gets at least the
    matches of the other; and the empty query gets the whole
    dataset. *)
Theorem search_returns_containing_fruits (term : string) :
  let q := toLowerCase (list_ascii_of_string term) in
  simulateSearch term false = inr (search term) /\
  (forall f, In f (search term) <->
             In f fruits /\
             exists pre post, list_ascii_of_string f = pre ++ q ++ post) /\
  NoDup (search term) /\
  (forall longer a b,
     list_ascii_of_string longer
     = a ++ list_ascii_of_string term ++ b ->
     incl (search longer) (search term)) /\
  search EmptyString = fruits.
Proof.
  intros q. split; [unfold simulateSearch, search; reflexivity |].
  split; [| split; [| split]].
  - intros f. unfold search. rewrite filter_In, includes_app. reflexivity.
  - unfold search. apply NoDup_filter.
    assert (H : nodup string_dec fruits = fruits) by (vm_compute; reflexivity).
    rewrite <- H. apply NoDup_nodup.
  - intros longer a b Hl f. unfold search. rewrite !filter_In.
    intros [Hf Hi]. split; [exact Hf |].
    apply includes_app in Hi as [pre [post Hi]].
    apply includes_app. rewrite Hl in Hi. unfold toLowerCase in Hi.
    rewrite !map_app in Hi.
    exists (pre ++ map lower a), (map lower b ++ post).
    rewrite Hi. unfold toLowerCase. rewrite <- !app_assoc. reflexivity.
  - vm_compute. reflexivity.
Qed.

Lemma search_returns_containing_fruits_witness :
  incl (search "apple") (search "app").
Proof.
  apply (proj1 (proj2 (proj2 (proj2
           (search_returns_containing_fruits "app"))))
           "apple"%string [] (list_ascii_of_string "le")).
  reflexivity.
Defined.

Lemma search_empty : search EmptyString = fruits.
Proof. vm_compute. reflexivity. Qed.

(** A single [q] is the term, empty or not. *)
Lemma term_of_one (r : HttpRequest) (s : string) :
  q r = One s -> term_of r = TermString s.
Proof.
  intros H. unfold term_of. rewrite H. destruct s; reflexivity.
Qed.

Lemma is_search_iff (r : HttpRequest) :
  is_search r = true <->
  method r = "GET"%string /\ pathname r = Some "/api/search"%string.
Proof.
  unfold is_search. rewrite andb_true_iff, String.eqb_eq.
  destruct (pathname r) as [path |].
  - rewrite String.eqb_eq. split.
    + intros [-> ->]. split; reflexivity.
    + intros [-> H]. injection H as ->. split; reflexivity.
  - split; [intros [H _]; discriminate | intros [_ H]; discriminate].
Qed.

Lemma handle_search (r : HttpRequest) (shouldFail : bool) :
  method r = "GET"%string -> pathname r = Some "/api/search"%string ->
  handle r shouldFail
  = match simulateSearchTerm (term_of r) shouldFail with
    | Resolved results =>
        Replied (mkReply 200 (Results (term_of r) results))
    | Rejected message => Replied (mkReply 500 (ErrorBody message))
    | Uncaught => Crashed
    end.
Proof.
  intros Hm Hp. unfold handle.
  rewrite (proj2 (is_search_iff r) (conj Hm Hp)), Hm. reflexivity.
Qed.

Lemma simulateSearchTerm_cases (term : Term) (shouldFail : bool) :
  simulateSearchTerm term shouldFail
  = if shouldFail then Rejected "Random backend failure"
    else match term with
         | TermString s => Resolved (search s)
         | TermArray _ => Uncaught
         end.
Proof.
  unfold simulateSearchTerm, simulateSearch, search.
  destruct term as [s | values]; destruct shouldFail;
    cbv iota; exact eq_refl.
Qed.

(** The four replies and the crash. *)
Lemma handle_cases (r : HttpRequest) (shouldFail : bool) :
  let o := handle r shouldFail in
  o = Replied (mkReply 204 NoBody) \/
  (exists results, o = Replied (mkReply 200 (Results (term_of r) results))) \/
  o = Replied (mkReply 500 (ErrorBody "Random backend failure")) \/
  o = Replied (mkReply 404 (ErrorBody "Not found")) \/
  o = Crashed.
Proof.
  cbv zeta. unfold handle.
  destruct (String.eqb (method r) "OPTIONS"); [left; reflexivity |].
  destruct (is_search r); [| right; right; right; left; reflexivity].
  rewrite simulateSearchTerm_cases. destruct shouldFail.
  - right; right; left. reflexivity.
  - destruct (term_of r).
    + right; left. eexists. reflexivity.
    + right; right; right; right. reflexivity.
Qed.

(** X22.  What a running server does with one request, given the
    parsed URL and the outcome of the random draw.  OPTIONS gets 204
    without a body on any path.  GET on /api/search gets 500 when the
    draw fails; otherwise a single [q] gets 200 with the query echoed
    and its matches, a missing [q] is the empty query and gets the
    whole dataset, and a repeated [q] gets no reply at all: the
    listener throws outside the promise and the process ends.  That
    is the only case without a reply, and no request built by the
    component is of that kind.  Everything else gets 404.  For both
    error replies the client shows its own text for the status
    (server error, endpoint not found), never the [error] text of the
    body. *)
Theorem server_replies (r : HttpRequest) (shouldFail : bool) :
  let o := handle r shouldFail in
  (method r = "OPTIONS"%string -> o = Replied (mkReply 204 NoBody)) /\
  (method r = "GET"%string -> pathname r = Some "/api/search"%string ->
     (shouldFail = true ->
        o = Replied (mkReply 500 (ErrorBody "Random backend failure"))) /\
     (shouldFail = false ->
        (forall s, q r = One s ->
           o = Replied (mkReply 200 (Results (TermString s) (search s)))) /\
        (q r = Absent ->
           o = Replied (mkReply 200 (Results (TermString EmptyString) fruits))) /\
        (forall values, q r = Many values -> o = Crashed))) /\
  (o = Crashed <->
     method r = "GET"%string /\ pathname r = Some "/api/search"%string /\
     shouldFail = false /\ exists values, q r = Many values) /\
  (forall term, handle (client_request term) shouldFail <> Crashed) /\
  (method r <> "OPTIONS"%string ->
   ~ (method r = "GET"%string /\ pathname r = Some "/api/search"%string) ->
   o = Replied (mkReply 404 (ErrorBody "Not found"))) /\
  (forall p, o = Replied p ->
     (status p = 200 \/ status p = 204 \/ status p = 404 \/ status p = 500) /\
     (status p = 500 ->
        Component.classify (as_error p) = Component.msg_server) /\
     (status p = 404 ->
        Component.classify (as_error p) = Component.msg_not_found)).
Proof.
  cbv zeta. split; [| split; [| split; [| split; [| split]]]].
  - intros Hm. unfold handle. rewrite Hm. reflexivity.
  - intros Hm Hp. rewrite (handle_search r shouldFail Hm Hp).
    rewrite simulateSearchTerm_cases. split.
    + intros ->. reflexivity.
    + intros ->. split; [| split].
      * intros s Hq. rewrite (term_of_one r s Hq). reflexivity.
      * intros Hq. unfold term_of. rewrite Hq, search_empty. reflexivity.
      * intros values Hq. unfold term_of. rewrite Hq. reflexivity.
  - split.
    + unfold handle.
      destruct (String.eqb (method r) "OPTIONS"); [discriminate |].
      destruct (is_search r) eqn:Hs; [| discriminate].
      apply is_search_iff in Hs as [Hm Hp].
      rewrite simulateSearchTerm_cases.
      destruct shouldFail; [discriminate |].
      unfold term_of. destruct (q r) as [| s | values] eqn:Hq.
      * discriminate.
      * destruct (JsString.truthy s); discriminate.
      * intros _. split; [exact Hm |]. split; [exact Hp |].
        split; [reflexivity |]. exists values. reflexivity.
    + intros [Hm [Hp [-> [values Hq]]]].
      rewrite (handle_search r false Hm Hp), simulateSearchTerm_cases.
      unfold term_of. rewrite Hq. reflexivity.
  - intros term.
    rewrite (handle_search (client_request term) shouldFail eq_refl eq_refl).
    rewrite simulateSearchTerm_cases,
      (term_of_one (client_request term) term eq_refl).
    destruct shouldFail; discriminate.
  - intros Hm Hn. unfold handle.
    destruct (String.eqb (method r) "OPTIONS") eqn:Ho.
    + apply String.eqb_eq in Ho. contradiction.
    + destruct (is_search r) eqn:Hs; [| reflexivity].
      apply is_search_iff in Hs. contradiction.
  - intros p Hp.
    destruct (handle_cases r shouldFail)
      as [H | [[rs H] | [H | [H | H]]]];
      cbv zeta in H; rewrite H in Hp;
      try discriminate Hp; injection Hp as Hp; subst p; cbn [status];
      (split; [auto | split; intros E; try discriminate E; reflexivity]).
Qed.

Lemma server_replies_witness :
  handle (mkHttpRequest "GET" (Some "/api/search"%string)
            (Many ["apple"; "pear"]%string)) false = Crashed.
Proof.
  destruct (server_replies
              (mkHttpRequest "GET" (Some "/api/search"%string)
                 (Many ["apple"; "pear"]%string)) false)
    as [_ [Hget _]].
  destruct (Hget eq_refl eq_refl) as [_ Hok].
  destruct (Hok eq_refl) as [_ [_ Hmany]].
  exact (Hmany ["apple"; "pear"]%string eq_refl).
Defined.

(** Lower-casing does not change the canonical form of a code unit:
    checked for each of the 256 code units. *)
Lemma canonical_of_lower_codes :
  forallb (fun n => (canonical_code (lower_code n) =? canonical_code n)%nat)
    code_units = true.
Proof. vm_compute. reflexivity. Qed.

Lemma canonical_of_lower (c : ascii) :
  canonicalize (lower c) = canonicalize c.
Proof.
  destruct (ascii_code_unit c) as [Ic Ec].
  pose proof (proj1 (forallb_forall _ _) canonical_of_lower_codes _ Ic) as H.
  apply Nat.eqb_eq in H. unfold canonical_code in H. rewrite Ec in H.
  exact H.
Qed.

Lemma starts_with_matches (query s : list ascii) :
  starts_with (toLowerCase query) s = true -> matches_at query s = true.
Proof.
  revert s. induction query as [| a query IH]; intros s; simpl;
    [reflexivity |].
  destruct s as [| b s]; [discriminate |].
  intros H. apply andb_true_iff in H as [Hab Hq].
  apply Ascii.eqb_eq in Hab. subst b.
  unfold ci_eqb. rewrite canonical_of_lower, Nat.eqb_refl. simpl.
  apply IH. exact Hq.
Qed.

Lemma includes_occurs (query s : list ascii) :
  includes s (toLowerCase query) = true -> occurs query s = true.
Proof.
  induction s as [| b s IH]; simpl.
  - rewrite !orb_false_r. apply starts_with_matches.
  - intros H. apply orb_true_iff in H as [H | H].
    + rewrite (starts_with_matches _ _ H). reflexivity.
    + rewrite (IH H). apply orb_true_r.
Qed.

Lemma search_includes (term f : string) :
  In f (search term) ->
  includes (list_ascii_of_string f)
    (toLowerCase (list_ascii_of_string term)) = true.
Proof.
  unfold search. rewrite filter_In. intros [_ H]. exact H.
Qed.

(** The letters A-Z and a-z. *)
Definition small_letter_code (n : nat) : bool :=
  ((97 <=? n) && (n <=? 122))%nat.

Definition ascii_letter (c : ascii) : bool :=
  let n := nat_of_ascii c in
  (((65 <=? n) && (n <=? 90)) || small_letter_code n)%nat.

(** Every fruit of the dataset is written in the letters a-z. *)
Lemma fruits_small_letters :
  forallb (fun f => forallb (fun c => small_letter_code (nat_of_ascii c))
                      (list_ascii_of_string f)) fruits = true.
Proof. vm_compute. reflexivity. Qed.

(** Only A-Z and a-z are lower-cased to one of a-z: checked for each
    of the 256 code units. *)
Lemma lower_letter_codes :
  forallb (fun n => implb (small_letter_code
                             (nat_of_ascii (lower (ascii_of_nat n))))
                      (ascii_letter (ascii_of_nat n)))
    code_units = true.
Proof. vm_compute. reflexivity. Qed.

Lemma lower_letter (c : ascii) :
  small_letter_code (nat_of_ascii (lower c)) = true -> ascii_letter c = true.
Proof.
  destruct (ascii_code_unit c) as [Ic Ec].
  pose proof (proj1 (forallb_forall _ _) lower_letter_codes _ Ic) as H.
  cbv beta in H. rewrite Ec in H. intros Hs. rewrite Hs in H. exact H.
Qed.

Lemma search_letters (term f : string) :
  In f (search term) ->
  Forall (fun c => ascii_letter c = true) (list_ascii_of_string term).
Proof.
  intros Hin. apply Forall_forall. intros c Hc.
  apply lower_letter.
  assert (Hf : In f fruits).
  { unfold search in Hin. apply filter_In in Hin. exact (proj1 Hin). }
  pose proof (search_includes term f Hin) as Hi.
  apply includes_app in Hi as [pre [post Hi]].
  pose proof (proj1 (forallb_forall _ _) fruits_small_letters f Hf) as Hs.
  cbv beta in Hs. rewrite Hi in Hs.
  apply (proj1 (forallb_forall _ _) Hs).
  apply in_or_app. right. apply in_or_app. left.
  unfold toLowerCase. apply in_map. exact Hc.
Qed.

(** X23.  Server and client agree on what a match is, for queries of
    code units below 256 (the strings of this development): when the
    server returns a fruit for a non-blank query, the query is written
    in the letters A-Z and a-z only, and the client, rendering that
    fruit with the same query, highlights at least one piece.  (Above
    that range the two sides part: the server lower-cases the Kelvin
    sign, code unit 8490, to k, which the client's pattern does not
    match.) *)
Theorem server_matches_are_highlighted (term f : string) :
  blank term = false ->
  In f (search term) ->
  Forall (fun c => ascii_letter c = true) (list_ascii_of_string term) /\
  highlightMatch f term <> f /\
  (String.length f + 13 <= String.length (highlightMatch f term))%nat.
Proof.
  intros Hb Hin. split; [exact (search_letters term f Hin) |].
  assert (Hi : occurs (list_ascii_of_string term) (list_ascii_of_string f)
               = true).
  { apply includes_occurs. apply search_includes. exact Hin. }
  destruct (highlight_pieces f term Hb) as [_ [Hlen [_ H2]]].
  specialize (H2 Hi).
  remember (marks (replaceAll (list_ascii_of_string term)
                     (list_ascii_of_string f))) as n eqn:En.
  remember (String.length (highlightMatch f term)) as b eqn:Eb.
  remember (String.length f) as a eqn:Ea.
  clear En Hi Hin.
  split; [| lia].
  intros He. rewrite He in Eb. rewrite <- Ea in Eb. lia.
Qed.

Lemma server_matches_are_highlighted_witness :
  highlightMatch "grapefruit" "APE" <> "grapefruit"%string.
Proof.
  apply (proj1 (proj2 (server_matches_are_highlighted "APE" "grapefruit"
                  ltac:(vm_compute; reflexivity)
                  ltac:(vm_compute; tauto)))).
Defined.

End ServerFacts.
